(** * Synapse: the mind-map store, proposal reconciliation and task write-back

    A shallow embedding of the state handlers of the [App] component
    (the part of [src/types.ts] that follows the interface declarations):
    [handleApplyChanges], [updateTaskInMindMap] and [handleUpdateNode],
    together with the React state they act on.

    Values are modelled as they exist at run time.  The proposals and tasks
    are parsed from the assistant's JSON and TypeScript's interfaces are
    erased, so an object is a record of optional fields: [None] is a key
    that reads as [undefined] (JSON carries no key whose value is
    [undefined], so in a partial [None] is a key that is absent).
    String-literal unions ([NodeType], the priority and urgency levels) are
    plain strings; [malformedNode] says which values the interfaces
    exclude.  Coordinates are only copied by the handlers and are kept as
    integers. *)

From Stdlib Require Import ZArith.
From stdpp Require Import base decidable option list relations sorting strings
  pretty.

Open Scope string_scope.
Open Scope list_scope.

(** ** Data model ([src/types.ts], lines 2-59) *)

(** [type NodeType = 'concept' | 'task' | 'person' | 'event' | 'resource'] *)
Definition NodeType : list string :=
  ["concept"; "task"; "person"; "event"; "resource"].

(** ['high' | 'medium' | 'low'], the type of [priority] and [urgency]. *)
Definition Level : list string := ["high"; "medium"; "low"].

(** [interface MindNode]; [Partial<MindNode>] is the same run-time shape. *)
Module MindNode.
Record t : Type := mk {
  id : option string;
  label : option string;
  type : option string;
  description : option string;
  icon : option string;
  details : option string;
  date : option string;
  reminderDate : option string;
  isCompleted : option bool;
  priority : option string;
  x : option Z;
  y : option Z
}.

(** The object with no key at all, [{}]. *)
Definition empty : t :=
  mk None None None None None None None None None None None None.
End MindNode.

(** [interface MindEdge] *)
Module MindEdge.
Record t : Type := mk {
  id : option string;
  source : option string;
  target : option string;
  label : option string
}.
End MindEdge.

(** [interface MindMapData] *)
Record MindMapData : Type := mkMindMapData {
  nodes : list MindNode.t;
  edges : list MindEdge.t
}.

(** [interface MindMapChangeProposal].  The three lists may be missing from
    the assistant's answer; [handleApplyChanges] reads them with [|| []]. *)
Record MindMapChangeProposal : Type := mkProposal {
  nodesToAdd : option (list MindNode.t);
  nodesToUpdate : option (list MindNode.t);
  edgesToAdd : option (list MindEdge.t);
  explanation : string
}.

(** [interface Task] *)
Module Task.
Record t : Type := mk {
  id : option string;
  title : option string;
  dueDate : option string;
  reminderDate : option string;
  urgency : option string;
  completed : option bool;
  nodeId : option string
}.
End Task.

#[global] Instance MindNode_eq_dec : EqDecision MindNode.t.
Proof. solve_decision. Defined.
#[global] Instance MindEdge_eq_dec : EqDecision MindEdge.t.
Proof. solve_decision. Defined.
#[global] Instance Task_eq_dec : EqDecision Task.t.
Proof. solve_decision. Defined.

(** ** JavaScript primitives used by the handlers *)

(** [a === b] on two ids (strings, or [undefined]). *)
Definition strict_eq (a b : option string) : bool := bool_decide (a = b).

(** [xs || []] *)
Definition or_empty {A} (xs : option (list A)) : list A := default [] xs.

(** [Array.prototype.find]: the first element satisfying [p]. *)
Fixpoint find {A} (p : A → bool) (l : list A) : option A :=
  match l with
  | [] => None
  | a :: l' => if p a then Some a else find p l'
  end.

(** [Array.prototype.findIndex]: the index of the first element satisfying
    [p]; JavaScript's [-1] is [None]. *)
Fixpoint findIndex {A} (p : A → bool) (l : list A) : option nat :=
  match l with
  | [] => None
  | a :: l' => if p a then Some 0 else S <$> findIndex p l'
  end.

(** One key of [{...old, ...new}]: the value of [new] when it has the key. *)
Definition spread_field {A} (old new : option A) : option A :=
  match new with
  | Some v => Some v
  | None => old
  end.

(** [{ ...n, ...update }] *)
Definition spread (n update : MindNode.t) : MindNode.t :=
  {| MindNode.id := spread_field (MindNode.id n) (MindNode.id update);
     MindNode.label := spread_field (MindNode.label n) (MindNode.label update);
     MindNode.type := spread_field (MindNode.type n) (MindNode.type update);
     MindNode.description :=
       spread_field (MindNode.description n) (MindNode.description update);
     MindNode.icon := spread_field (MindNode.icon n) (MindNode.icon update);
     MindNode.details :=
       spread_field (MindNode.details n) (MindNode.details update);
     MindNode.date := spread_field (MindNode.date n) (MindNode.date update);
     MindNode.reminderDate :=
       spread_field (MindNode.reminderDate n) (MindNode.reminderDate update);
     MindNode.isCompleted :=
       spread_field (MindNode.isCompleted n) (MindNode.isCompleted update);
     MindNode.priority :=
       spread_field (MindNode.priority n) (MindNode.priority update);
     MindNode.x := spread_field (MindNode.x n) (MindNode.x update);
     MindNode.y := spread_field (MindNode.y n) (MindNode.y update) |}.

(** ** [handleApplyChanges] ([src/types.ts], lines 109-138) *)

(** Body of [nodesToAdd.forEach]: push [node] unless [newNodes] already has
    a node with its id. *)
Definition addNode (newNodes : list MindNode.t) (node : MindNode.t)
  : list MindNode.t :=
  match find (λ n, strict_eq (MindNode.id n) (MindNode.id node)) newNodes with
  | None => newNodes ++ [node]
  | Some _ => newNodes
  end.

(** Body of [nodesToUpdate.forEach]: overwrite the first node carrying the
    id of [update] with the spread of both.  [idx] comes from [findIndex],
    so [newNodes[idx]] is always defined (lemma [findIndex_lookup]). *)
Definition updateNode (newNodes : list MindNode.t) (update : MindNode.t)
  : list MindNode.t :=
  match findIndex (λ n, strict_eq (MindNode.id n) (MindNode.id update))
          newNodes with
  | Some idx =>
      match newNodes !! idx with
      | Some n => <[idx := spread n update]> newNodes
      | None => newNodes
      end
  | None => newNodes
  end.

(** Body of [edgesToAdd.forEach]: push [edge] unless [newEdges] already has
    an edge with its id.  Source and target are not looked at. *)
Definition addEdge (newEdges : list MindEdge.t) (edge : MindEdge.t)
  : list MindEdge.t :=
  match find (λ e, strict_eq (MindEdge.id e) (MindEdge.id edge)) newEdges with
  | None => newEdges ++ [edge]
  | Some _ => newEdges
  end.

(** The updater passed to [setMindMap]. *)
Definition applyChanges (proposal : MindMapChangeProposal) (prev : MindMapData)
  : MindMapData :=
  let newNodes := foldl addNode (nodes prev) (or_empty (nodesToAdd proposal)) in
  let newNodes := foldl updateNode newNodes (or_empty (nodesToUpdate proposal)) in
  let newEdges := foldl addEdge (edges prev) (or_empty (edgesToAdd proposal)) in
  {| nodes := newNodes; edges := newEdges |}.

(** ** [updateTaskInMindMap] ([src/types.ts], lines 140-157) *)

(** The object literal returned for a node whose id is [updatedTask.nodeId]. *)
Definition writeTask (node : MindNode.t) (updatedTask : Task.t) : MindNode.t :=
  {| MindNode.id := MindNode.id node;
     MindNode.label := Task.title updatedTask;
     MindNode.type := MindNode.type node;
     MindNode.description := MindNode.description node;
     MindNode.icon := MindNode.icon node;
     MindNode.details := MindNode.details node;
     MindNode.date := Task.dueDate updatedTask;
     MindNode.reminderDate := Task.reminderDate updatedTask;
     MindNode.isCompleted := Task.completed updatedTask;
     MindNode.priority := Task.urgency updatedTask;
     MindNode.x := MindNode.x node;
     MindNode.y := MindNode.y node |}.

(** The updater passed to [setMindMap]. *)
Definition taskIntoMindMap (updatedTask : Task.t) (prev : MindMapData)
  : MindMapData :=
  let newNodes :=
    (λ node, if strict_eq (MindNode.id node) (Task.nodeId updatedTask)
             then writeTask node updatedTask
             else node) <$> nodes prev in
  {| nodes := newNodes; edges := edges prev |}.

(** ** [handleUpdateNode] ([src/types.ts], lines 159-164) *)

Definition nodeIntoMindMap (updatedNode : MindNode.t) (prev : MindMapData)
  : MindMapData :=
  {| nodes := (λ n, if strict_eq (MindNode.id n) (MindNode.id updatedNode)
                    then updatedNode else n) <$> nodes prev;
     edges := edges prev |}.

(** ** The state of [App] and its handlers *)

(** The five [useState] cells of [App]. *)
Record AppState : Type := mkAppState {
  mindMap : MindMapData;
  tasks : list Task.t;
  isSyncingTasks : bool;
  isChatCollapsed : bool;
  isTaskWidgetVisible : bool
}.

(** [setMindMap(prev => f(prev))]: the call writes the cell [mindMap] and
    no other.  The model keeps the value of the graph, not the identity of
    the object: the three updaters below always build a new object, so
    after each of them [App] renders again, [syncTasks] (whose dependency
    is [mindMap], lines 90-100) is a new function and the effect of lines
    103-107 calls it.  That call is the event [SyncStarted] of a session,
    not a part of the handler: an equation [handler st = st] speaks of the
    cells the handler writes, and says nothing about the sync that
    follows. *)
Definition setMindMap (f : MindMapData → MindMapData) (st : AppState)
  : AppState :=
  {| mindMap := f (mindMap st);
     tasks := tasks st;
     isSyncingTasks := isSyncingTasks st;
     isChatCollapsed := isChatCollapsed st;
     isTaskWidgetVisible := isTaskWidgetVisible st |}.

(** [setTasks(extractedTasks)], the only write to the task list. *)
Definition setTasks (extractedTasks : list Task.t) (st : AppState) : AppState :=
  {| mindMap := mindMap st;
     tasks := extractedTasks;
     isSyncingTasks := isSyncingTasks st;
     isChatCollapsed := isChatCollapsed st;
     isTaskWidgetVisible := isTaskWidgetVisible st |}.

(** [setIsSyncingTasks(b)] *)
Definition setIsSyncingTasks (b : bool) (st : AppState) : AppState :=
  {| mindMap := mindMap st;
     tasks := tasks st;
     isSyncingTasks := b;
     isChatCollapsed := isChatCollapsed st;
     isTaskWidgetVisible := isTaskWidgetVisible st |}.

(** [setIsChatCollapsed(b)] *)
Definition setIsChatCollapsed (b : bool) (st : AppState) : AppState :=
  {| mindMap := mindMap st;
     tasks := tasks st;
     isSyncingTasks := isSyncingTasks st;
     isChatCollapsed := b;
     isTaskWidgetVisible := isTaskWidgetVisible st |}.

(** [setIsTaskWidgetVisible(b)] *)
Definition setIsTaskWidgetVisible (b : bool) (st : AppState) : AppState :=
  {| mindMap := mindMap st;
     tasks := tasks st;
     isSyncingTasks := isSyncingTasks st;
     isChatCollapsed := isChatCollapsed st;
     isTaskWidgetVisible := b |}.

(** [syncTasks] ([src/types.ts], lines 90-100) awaits the external
    extraction, so it is three state changes: the part before the [await],
    and after it either the [try] branch followed by [finally], or the
    [catch] branch followed by [finally]. *)
Definition syncStarted : AppState → AppState := setIsSyncingTasks true.

Definition syncSucceeded (extractedTasks : list Task.t) (st : AppState)
  : AppState :=
  setIsSyncingTasks false (setTasks extractedTasks st).

Definition syncFailed : AppState → AppState := setIsSyncingTasks false.

Definition handleApplyChanges (proposal : MindMapChangeProposal)
  : AppState → AppState :=
  setMindMap (applyChanges proposal).

Definition updateTaskInMindMap (updatedTask : Task.t) : AppState → AppState :=
  setMindMap (taskIntoMindMap updatedTask).

Definition handleUpdateNode (updatedNode : MindNode.t) : AppState → AppState :=
  setMindMap (nodeIntoMindMap updatedNode).

(** ** The seed graph, [INITIAL_DATA] ([src/types.ts], lines 70-80) *)

Definition seedNode (i l ic d : string) (px py : Z) : MindNode.t :=
  {| MindNode.id := Some i; MindNode.label := Some l;
     MindNode.type := Some "concept"; MindNode.description := Some d;
     MindNode.icon := Some ic; MindNode.details := None;
     MindNode.date := None; MindNode.reminderDate := None;
     MindNode.isCompleted := None; MindNode.priority := None;
     MindNode.x := Some px; MindNode.y := Some py |}.

Definition seedEdge (i s t : string) : MindEdge.t :=
  {| MindEdge.id := Some i; MindEdge.source := Some s;
     MindEdge.target := Some t; MindEdge.label := None |}.

Definition INITIAL_DATA : MindMapData :=
  {| nodes :=
       [ seedNode "me" "My Consciousness" "🧠"
           "The root of my digital twin." 0 0;
         seedNode "work" "Work" "💼"
           "Professional life and goals." 150 50;
         seedNode "health" "Health" "💪"
           "Physical and mental well-being." (-150) 50 ];
     edges := [ seedEdge "e1" "me" "work"; seedEdge "e2" "me" "health" ] |}.

(** The state [App] starts in. *)
Definition initialState : AppState :=
  {| mindMap := INITIAL_DATA; tasks := []; isSyncingTasks := false;
     isChatCollapsed := false; isTaskWidgetVisible := true |}.

(** ** Sessions

    Everything that writes the state of [App] during a session: the three
    handlers passed to [ChatWindow], [TaskWidget] and [MindMap], the phases
    of [syncTasks], and the inline callbacks that show and hide the two
    panels ([src/types.ts], lines 179-207). *)
Inductive Event : Type :=
  | ApplyChanges (proposal : MindMapChangeProposal)
  | UpdateTask (updatedTask : Task.t)
  | UpdateNode (updatedNode : MindNode.t)
  | SyncStarted
  | SyncSucceeded (extractedTasks : list Task.t)
  | SyncFailed
  | ToggleTaskWidget
  | CloseTaskWidget
  | CollapseChat
  | ExpandChat.

Definition handle (st : AppState) (ev : Event) : AppState :=
  match ev with
  | ApplyChanges proposal => handleApplyChanges proposal st
  | UpdateTask updatedTask => updateTaskInMindMap updatedTask st
  | UpdateNode updatedNode => handleUpdateNode updatedNode st
  | SyncStarted => syncStarted st
  | SyncSucceeded extractedTasks => syncSucceeded extractedTasks st
  | SyncFailed => syncFailed st
  | ToggleTaskWidget =>
      setIsTaskWidgetVisible (negb (isTaskWidgetVisible st)) st
  | CloseTaskWidget => setIsTaskWidgetVisible false st
  | CollapseChat => setIsChatCollapsed true st
  | ExpandChat => setIsChatCollapsed false st
  end.

Definition run (st : AppState) (evs : list Event) : AppState :=
  foldl handle st evs.

(** The event is the arrival of an extraction. *)
Definition isSyncSucceeded (ev : Event) : bool :=
  match ev with
  | SyncSucceeded _ => true
  | _ => false
  end.

(** ** Reading the model *)

Definition nodeIds (ns : list MindNode.t) : list (option string) :=
  MindNode.id <$> ns.

Definition edgeIds (es : list MindEdge.t) : list (option string) :=
  MindEdge.id <$> es.

(** Every edge starts and ends at the id of a node of the graph. *)
Definition noDangling (g : MindMapData) : Prop :=
  Forall (λ e, MindEdge.source e ∈ nodeIds (nodes g) ∧
               MindEdge.target e ∈ nodeIds (nodes g)) (edges g).

(** Some edge of [es] joins the id [k] to one of the ids [old]. *)
Definition linksInto (old : list (option string)) (es : list MindEdge.t)
    (k : option string) : Prop :=
  Exists (λ e, (MindEdge.source e = k ∧ MindEdge.target e ∈ old) ∨
               (MindEdge.target e = k ∧ MindEdge.source e ∈ old)) es.

(** Every node of [g'] whose id [g] did not have is joined by an edge of
    [g'] to a node [g] had. *)
Definition newNodesLinked (g g' : MindMapData) : Prop :=
  Forall (λ n, MindNode.id n ∈ nodeIds (nodes g) ∨
               linksInto (nodeIds (nodes g)) (edges g') (MindNode.id n))
         (nodes g').

(** Two ids are the ends of one edge, in either direction. *)
Definition adjacent (es : list MindEdge.t) (a b : option string) : Prop :=
  Exists (λ e, (MindEdge.source e = a ∧ MindEdge.target e = b) ∨
               (MindEdge.source e = b ∧ MindEdge.target e = a)) es.

(** Any two nodes are joined by a path of edges. *)
Definition connected (g : MindMapData) : Prop :=
  ∀ a b, a ∈ nodeIds (nodes g) → b ∈ nodeIds (nodes g) →
         rtc (adjacent (edges g)) a b.

(** What the interfaces call malformed: a value outside its enumeration,
    or no id. *)
Definition outside (enum : list string) (v : option string) : bool :=
  match v with
  | Some s => bool_decide (s ∉ enum)
  | None => false
  end.

Definition malformedNode (n : MindNode.t) : bool :=
  bool_decide (MindNode.id n = None)
  || outside NodeType (MindNode.type n)
  || outside Level (MindNode.priority n).

Definition malformedEdge (e : MindEdge.t) : bool :=
  bool_decide (MindEdge.id e = None).

(** What the interfaces of [src/types.ts] promise about a value: the
    required keys are there and the enumerated ones are in range. *)
Definition among (enum : list string) (v : option string) : bool :=
  match v with
  | Some s => bool_decide (s ∈ enum)
  | None => false
  end.

Definition typedNode (n : MindNode.t) : bool :=
  bool_decide (is_Some (MindNode.id n))
  && bool_decide (is_Some (MindNode.label n))
  && among NodeType (MindNode.type n)
  && bool_decide (is_Some (MindNode.description n))
  && negb (outside Level (MindNode.priority n)).

Definition typedPartial (u : MindNode.t) : bool :=
  negb (outside NodeType (MindNode.type u))
  && negb (outside Level (MindNode.priority u)).

Definition typedEdge (e : MindEdge.t) : bool :=
  bool_decide (is_Some (MindEdge.id e))
  && bool_decide (is_Some (MindEdge.source e))
  && bool_decide (is_Some (MindEdge.target e)).

Definition typedProposal (p : MindMapChangeProposal) : bool :=
  forallb typedNode (or_empty (nodesToAdd p))
  && forallb typedPartial (or_empty (nodesToUpdate p))
  && forallb typedEdge (or_empty (edgesToAdd p)).

Definition typedTask (t : Task.t) : bool :=
  bool_decide (is_Some (Task.id t))
  && bool_decide (is_Some (Task.title t))
  && among Level (Task.urgency t)
  && bool_decide (is_Some (Task.completed t))
  && bool_decide (is_Some (Task.nodeId t)).

(** [n'] is [n] with the keys of [u] written over it, key by key. *)
Definition mergedField {A} (f : MindNode.t → option A) (n u n' : MindNode.t)
  : Prop :=
  match f u with
  | Some v => f n' = Some v
  | None => f n' = f n
  end.

Definition shallowMerged (n u n' : MindNode.t) : Prop :=
  mergedField MindNode.id n u n' ∧ mergedField MindNode.label n u n' ∧
  mergedField MindNode.type n u n' ∧ mergedField MindNode.description n u n' ∧
  mergedField MindNode.icon n u n' ∧ mergedField MindNode.details n u n' ∧
  mergedField MindNode.date n u n' ∧ mergedField MindNode.reminderDate n u n' ∧
  mergedField MindNode.isCompleted n u n' ∧
  mergedField MindNode.priority n u n' ∧
  mergedField MindNode.x n u n' ∧ mergedField MindNode.y n u n'.

(** [n'] carries the five fields of the task [t] and is [n] elsewhere. *)
Definition taskWritten (n : MindNode.t) (t : Task.t) (n' : MindNode.t) : Prop :=
  MindNode.label n' = Task.title t ∧
  MindNode.date n' = Task.dueDate t ∧
  MindNode.reminderDate n' = Task.reminderDate t ∧
  MindNode.priority n' = Task.urgency t ∧
  MindNode.isCompleted n' = Task.completed t ∧
  MindNode.id n' = MindNode.id n ∧
  MindNode.type n' = MindNode.type n ∧
  MindNode.description n' = MindNode.description n ∧
  MindNode.icon n' = MindNode.icon n ∧
  MindNode.details n' = MindNode.details n ∧
  MindNode.x n' = MindNode.x n ∧
  MindNode.y n' = MindNode.y n.

(** ** Auxiliary definitions *)

(** The loop body shared by [addNode] and [addEdge], for any element type
    and id projection: push [a] unless [l] has an element with its id. *)
Definition pushNew {A} (key : A → option string) (l : list A) (a : A)
  : list A :=
  match find (λ b, strict_eq (key b) (key a)) l with
  | None => l ++ [a]
  | Some _ => l
  end.

(** The position [updateNode] writes to: the first node with the id [k]. *)
Definition indexOfId (k : option string) (ns : list MindNode.t) : option nat :=
  findIndex (λ n, strict_eq (MindNode.id n) k) ns.

(** Everything the updates [us] write to position [i], spread into one
    object; the positions are resolved against the ids [ns] carries. *)
Fixpoint gather (ns : list MindNode.t) (i : nat) (us : list MindNode.t)
  : MindNode.t :=
  match us with
  | [] => MindNode.empty
  | u :: us' =>
      spread (if decide (indexOfId (MindNode.id u) ns = Some i)
              then u else MindNode.empty)
             (gather ns i us')
  end.

(** ** Scenarios

    The inputs of the specification's scenarios, and inputs the handlers
    can receive from the assistant and from [TaskWidget]. *)

(** [{id, label, type, description}], the other keys missing. *)
Definition plainNode (i l t d : option string) : MindNode.t :=
  MindNode.mk i l t d None None None None None None None None.

(** Seed graph merge: [{nodesToAdd: [gym], edgesToAdd: [e3]}].  The node
    is the scenario's, with the description the interface asks for. *)
Definition gym : MindNode.t :=
  plainNode (Some "gym") (Some "Gym") (Some "resource")
    (Some "Where I train.").

Definition gymProposal : MindMapChangeProposal :=
  {| nodesToAdd := Some [gym];
     nodesToUpdate := None;
     edgesToAdd := Some [seedEdge "e3" "health" "gym"];
     explanation := "Gym added under Health" |}.

(** Unknown-target update: [updateNode({id: "ghost", label: "X"})]. *)
Definition ghost : MindNode.t := plainNode (Some "ghost") (Some "X") None None.

(** A task the extraction may return for the node [work], and the state
    once a sync has delivered it. *)
Definition reportTask : Task.t :=
  {| Task.id := Some "t1"; Task.title := Some "Send the report";
     Task.dueDate := Some "Friday"; Task.reminderDate := None;
     Task.urgency := Some "medium"; Task.completed := Some false;
     Task.nodeId := Some "work" |}.

Definition syncedState : AppState := syncSucceeded [reportTask] initialState.

(** The checkbox of [TaskWidget]: [{...task, completed: !task.completed}]. *)
Definition reportDone : Task.t :=
  {| Task.id := Some "t1"; Task.title := Some "Send the report";
     Task.dueDate := Some "Friday"; Task.reminderDate := None;
     Task.urgency := Some "medium"; Task.completed := Some true;
     Task.nodeId := Some "work" |}.

(** A task whose node is not in the graph. *)
Definition orphanTask : Task.t :=
  {| Task.id := Some "t9"; Task.title := Some "Call the dentist";
     Task.dueDate := None; Task.reminderDate := None;
     Task.urgency := Some "low"; Task.completed := Some false;
     Task.nodeId := Some "dentist" |}.

(** Task write-back round-trip: [N] and [T] of the specification. *)
Definition nodeN1 : MindNode.t :=
  MindNode.mk (Some "n1") (Some "Old") None None None None None None None
    (Some "low") None None.

Definition taskT : Task.t :=
  {| Task.id := None; Task.title := Some "New"; Task.dueDate := None;
     Task.reminderDate := None; Task.urgency := Some "high";
     Task.completed := Some true; Task.nodeId := Some "n1" |}.

Definition stateN1 : AppState :=
  {| mindMap := {| nodes := [nodeN1]; edges := [] |}; tasks := [];
     isSyncingTasks := false; isChatCollapsed := false;
     isTaskWidgetVisible := true |}.

(** Update preserves unspecified fields: the node and the partial of the
    specification. *)
Definition nodeX : MindNode.t :=
  plainNode (Some "X") (Some "L1") (Some "concept") (Some "D").

Definition updateX : MindNode.t := plainNode (Some "X") (Some "L2") None None.

(** A proposal that repeats ids inside its own lists, and re-uses ids of
    the seed graph. *)
Definition repeatingProposal : MindMapChangeProposal :=
  {| nodesToAdd :=
       Some [ gym;
              plainNode (Some "gym") (Some "Gymnasium") (Some "event")
                (Some "The same id, again.");
              plainNode (Some "work") (Some "Job") (Some "concept")
                (Some "An id of the seed graph.") ];
     nodesToUpdate :=
       Some [ plainNode (Some "gym") (Some "Sports hall") None None ];
     edgesToAdd :=
       Some [ seedEdge "e3" "health" "gym"; seedEdge "e3" "me" "gym";
              seedEdge "e1" "work" "gym" ];
     explanation := "Gym, twice" |}.

(** No id is carried by two nodes, none by two edges. *)
Definition distinctIds (g : MindMapData) : Prop :=
  NoDup (nodeIds (nodes g)) ∧ NoDup (edgeIds (edges g)).

(** A proposal that re-adds [work] and, in the same batch, renames it. *)
Definition workAgain : MindNode.t :=
  plainNode (Some "work") (Some "Work, again") (Some "task") (Some "Duplicate").

Definition readdAndRename : MindMapChangeProposal :=
  {| nodesToAdd := Some [workAgain];
     nodesToUpdate := Some [plainNode (Some "work") (Some "Job") None None];
     edgesToAdd := None;
     explanation := "Work renamed" |}.

(** The same re-add alone, as in the scenario of the specification. *)
Definition readdOnly : MindMapChangeProposal :=
  {| nodesToAdd := Some [workAgain];
     nodesToUpdate := None;
     edgesToAdd := None;
     explanation := "Work re-added" |}.

(** The assistant adds [gym] but points the new edge at a node it never
    proposed. *)
Definition looseProposal : MindMapChangeProposal :=
  {| nodesToAdd := Some [gym];
     nodesToUpdate := None;
     edgesToAdd := Some [seedEdge "e3" "health" "yoga"];
     explanation := "Gym and yoga" |}.

(** A proposal mixing malformed and well-formed entries: a type and a
    priority outside their enumerations, a node and an edge without id. *)
Definition gadget : MindNode.t :=
  plainNode (Some "robot") (Some "Robot") (Some "gadget")
    (Some "A type outside the enumeration.").

Definition urgentNote : MindNode.t :=
  MindNode.mk (Some "note") (Some "Note") (Some "task")
    (Some "A priority outside the enumeration.") None None None None None
    (Some "urgent") None None.

Definition nameless : MindNode.t :=
  plainNode None (Some "Nameless") (Some "concept") (Some "No id.").

Definition namelessEdge : MindEdge.t :=
  {| MindEdge.id := None; MindEdge.source := Some "me";
     MindEdge.target := Some "robot"; MindEdge.label := None |}.

Definition malformedProposal : MindMapChangeProposal :=
  {| nodesToAdd := Some [gadget; urgentNote; nameless; gym];
     nodesToUpdate := None;
     edgesToAdd := Some [namelessEdge; seedEdge "e3" "health" "gym"];
     explanation := "Robot, note and gym" |}.

(** A malformed entry and a well-formed one with the same id, the malformed
    one first; and the same list with a rename of that id. *)
Definition gymGadget : MindNode.t :=
  plainNode (Some "gym") (Some "Gym machine") (Some "gadget")
    (Some "A type outside the enumeration, under the id of the gym.").

Definition gymRename : MindNode.t :=
  plainNode (Some "gym") (Some "Fitness club") None None.

Definition displacingProposal : MindMapChangeProposal :=
  {| nodesToAdd := Some [gymGadget; gym];
     nodesToUpdate := Some [gymRename];
     edgesToAdd := Some [seedEdge "e3" "health" "gym"];
     explanation := "Gym machine and gym" |}.

(** ** [TaskWidget] ([src/components/TaskWidget.tsx])

    The component keeps three cells and reports to [App] through its
    callbacks; a handler is modelled as the new cells together with the
    events it raises in [App]. *)

(** Truthiness of a value that is a boolean or [undefined]. *)
Definition truthy (b : option bool) : bool := default false b.

(** [priorityMap[u]] as a number: any key other than the three levels gives
    a value that is not a number. *)
Definition priorityMap (u : option string) : option Z :=
  match u with
  | Some s =>
      if String.eqb s "high" then Some 0%Z
      else if String.eqb s "medium" then Some 1%Z
      else if String.eqb s "low" then Some 2%Z
      else None
  | None => None
  end.

(** The comparator of [sortedTasks] (lines 25-29); [None] is [NaN]. *)
Definition compareTasks (a b : Task.t) : option Z :=
  if negb (bool_decide (Task.completed a = Task.completed b))
  then Some (if truthy (Task.completed a) then 1%Z else (-1)%Z)
  else match priorityMap (Task.urgency a), priorityMap (Task.urgency b) with
       | Some pa, Some pb => Some (pa - pb)%Z
       | _, _ => None
       end.

(** [Array.prototype.sort] with a comparator.  The sort is stable and reads
    [NaN] as [0]; when the comparator orders the elements consistently the
    result is the one stable sorted arrangement, which insertion computes.
    For an inconsistent comparator the language leaves the order to the
    engine, and insertion is then one order among those an engine may give,
    not the code's: [compareTasks] is consistent on tasks of type [Task]
    ([typedTask]) and need not be on others (with a missing [completed]
    it can put each of two tasks before the other), so every statement
    about [sortedTasks] is made of tasks of type [Task]. *)
Fixpoint insertSorted {A} (cmp : A → A → option Z) (a : A) (l : list A)
  : list A :=
  match l with
  | [] => [a]
  | b :: l' =>
      if (default 0 (cmp a b) <=? 0)%Z then a :: l
      else b :: insertSorted cmp a l'
  end.

Definition sort {A} (cmp : A → A → option Z) (l : list A) : list A :=
  foldr (insertSorted cmp) [] l.

(** [const sortedTasks = [...tasks].sort(...)] *)
Definition sortedTasks (tasks : list Task.t) : list Task.t :=
  sort compareTasks tasks.

(** The object [{}] of type [Partial<Task>]. *)
Definition emptyTask : Task.t := Task.mk None None None None None None None.

(** The cell [editingTaskId]: [null], or the id of the task handed to
    [startEditing] (which reads as [undefined] when the task has none). *)
Inductive EditingTaskId : Type :=
  | NotEditing
  | EditingTask (id : option string).

(** Truthiness of [editingTaskId]: a string that is not empty. *)
Definition editingTruthy (e : EditingTaskId) : bool :=
  match e with
  | EditingTask (Some s) => negb (String.eqb s EmptyString)
  | _ => false
  end.

Record TaskWidgetState : Type := mkTaskWidgetState {
  isExpanded : bool;
  editingTaskId : EditingTaskId;
  editValues : Task.t
}.

Definition initialTaskWidget : TaskWidgetState :=
  {| isExpanded := true; editingTaskId := NotEditing; editValues := emptyTask |}.

Definition startEditing (task : Task.t) (w : TaskWidgetState)
  : TaskWidgetState :=
  {| isExpanded := isExpanded w;
     editingTaskId := EditingTask (Task.id task);
     editValues := task |}.

Definition cancelEditing (w : TaskWidgetState) : TaskWidgetState :=
  {| isExpanded := isExpanded w;
     editingTaskId := NotEditing;
     editValues := emptyTask |}.

(** [saveEditing]: [editValues] is an object, hence truthy; the test is on
    [editingTaskId] alone. *)
Definition saveEditing (w : TaskWidgetState) : TaskWidgetState * list Event :=
  if editingTruthy (editingTaskId w)
  then (cancelEditing w, [UpdateTask (editValues w)])
  else (w, []).

(** The three inputs of the edit form. *)
Inductive TaskFieldEdit : Type :=
  | EditTitle (v : string)
  | EditDueDate (v : string)
  | EditUrgency (v : string).

(** [setEditValues({ ...editValues, field: v })] *)
Definition editTaskField (w : TaskWidgetState) (e : TaskFieldEdit)
  : TaskWidgetState :=
  let t := editValues w in
  {| isExpanded := isExpanded w;
     editingTaskId := editingTaskId w;
     editValues :=
       match e with
       | EditTitle v =>
           Task.mk (Task.id t) (Some v) (Task.dueDate t) (Task.reminderDate t)
             (Task.urgency t) (Task.completed t) (Task.nodeId t)
       | EditDueDate v =>
           Task.mk (Task.id t) (Task.title t) (Some v) (Task.reminderDate t)
             (Task.urgency t) (Task.completed t) (Task.nodeId t)
       | EditUrgency v =>
           Task.mk (Task.id t) (Task.title t) (Task.dueDate t)
             (Task.reminderDate t) (Some v) (Task.completed t) (Task.nodeId t)
       end |}.

(** [setIsExpanded(!isExpanded)] *)
Definition toggleExpanded (w : TaskWidgetState) : TaskWidgetState :=
  {| isExpanded := negb (isExpanded w);
     editingTaskId := editingTaskId w;
     editValues := editValues w |}.

(** The checkbox: [onUpdateTask({ ...task, completed: !task.completed })]. *)
Definition toggledTask (task : Task.t) : Task.t :=
  Task.mk (Task.id task) (Task.title task) (Task.dueDate task)
    (Task.reminderDate task) (Task.urgency task)
    (Some (negb (truthy (Task.completed task)))) (Task.nodeId task).

Definition toggleCompleted (task : Task.t) : list Event :=
  [UpdateTask (toggledTask task)].

(** The position of a typed task in the list: open tasks first, and high
    before medium before low among the open and among the completed. *)
Definition taskRank (t : Task.t) : Z :=
  ((if truthy (Task.completed t) then 3 else 0)
   + default 0 (priorityMap (Task.urgency t)))%Z.

(** ** The node panel of [MindMap] ([src/components/MindMap.tsx]) *)

Record MindMapState : Type := mkMindMapState {
  selectedNode : option MindNode.t;
  isEditing : bool;
  editNode : option MindNode.t
}.

Definition initialMindMap : MindMapState :=
  {| selectedNode := None; isEditing := false; editNode := None |}.

(** The click handler of a drawn node (lines 78-82): [d] is the copy the
    simulation moves around, the node selected is the one of [data]. *)
Definition nodeClick (data : MindMapData) (d : MindNode.t) (m : MindMapState)
  : MindMapState :=
  match find (λ n, strict_eq (MindNode.id n) (MindNode.id d)) (nodes data) with
  | Some originalNode =>
      {| selectedNode := Some originalNode;
         isEditing := isEditing m;
         editNode := editNode m |}
  | None => m
  end.

(** A click on the background: [setSelectedNode(null)]. *)
Definition svgClick (m : MindMapState) : MindMapState :=
  {| selectedNode := None; isEditing := isEditing m; editNode := editNode m |}.

Definition handleEditClick (m : MindMapState) : MindMapState :=
  {| selectedNode := selectedNode m;
     isEditing := true;
     editNode := selectedNode m |}.

(** The cross of the edit form: [setIsEditing(false)]. *)
Definition closeEditor (m : MindMapState) : MindMapState :=
  {| selectedNode := selectedNode m;
     isEditing := false;
     editNode := editNode m |}.

(** The four inputs of the edit form. *)
Inductive NodeFieldEdit : Type :=
  | EditIcon (v : string)
  | EditLabel (v : string)
  | EditDescription (v : string)
  | EditType (v : string).

(** [{ ...prev, field: v }] *)
Definition withField (prev : MindNode.t) (e : NodeFieldEdit) : MindNode.t :=
  match e with
  | EditIcon v =>
      MindNode.mk (MindNode.id prev) (MindNode.label prev) (MindNode.type prev)
        (MindNode.description prev) (Some v) (MindNode.details prev)
        (MindNode.date prev) (MindNode.reminderDate prev)
        (MindNode.isCompleted prev) (MindNode.priority prev)
        (MindNode.x prev) (MindNode.y prev)
  | EditLabel v =>
      MindNode.mk (MindNode.id prev) (Some v) (MindNode.type prev)
        (MindNode.description prev) (MindNode.icon prev)
        (MindNode.details prev) (MindNode.date prev)
        (MindNode.reminderDate prev) (MindNode.isCompleted prev)
        (MindNode.priority prev) (MindNode.x prev) (MindNode.y prev)
  | EditDescription v =>
      MindNode.mk (MindNode.id prev) (MindNode.label prev) (MindNode.type prev)
        (Some v) (MindNode.icon prev) (MindNode.details prev)
        (MindNode.date prev) (MindNode.reminderDate prev)
        (MindNode.isCompleted prev) (MindNode.priority prev)
        (MindNode.x prev) (MindNode.y prev)
  | EditType v =>
      MindNode.mk (MindNode.id prev) (MindNode.label prev) (Some v)
        (MindNode.description prev) (MindNode.icon prev)
        (MindNode.details prev) (MindNode.date prev)
        (MindNode.reminderDate prev) (MindNode.isCompleted prev)
        (MindNode.priority prev) (MindNode.x prev) (MindNode.y prev)
  end.

(** [setEditNode(prev => prev ? { ...prev, field: v } : null)] *)
Definition editNodeField (m : MindMapState) (e : NodeFieldEdit)
  : MindMapState :=
  {| selectedNode := selectedNode m;
     isEditing := isEditing m;
     editNode := (λ prev, withField prev e) <$> editNode m |}.

Definition saveEdit (m : MindMapState) : MindMapState * list Event :=
  match editNode m with
  | Some n =>
      ({| selectedNode := Some n; isEditing := false; editNode := editNode m |},
       [UpdateNode n])
  | None => (m, [])
  end.

(** ** [ChatWindow] ([src/unnamed/part_000])

    Messages are built by the component itself, so their fields have the
    types of [interface ChatMessage].  A clock reading is an integer number
    of milliseconds, which [toString] prints in decimal; [Date.now()] and
    [new Date()] are two readings. *)

Inductive Role : Type := user | assistant.

Module Attachment.
Record t : Type := mk {
  name : string;
  type : string;
  data : string
}.
End Attachment.

Module ChatMessage.
Record t : Type := mk {
  id : string;
  role : Role;
  content : string;
  timestamp : Z;
  suggestedChanges : option MindMapChangeProposal;
  attachments : option (list Attachment.t)
}.
End ChatMessage.

(** What [processBrainInput] resolves to. *)
Record BrainResponse : Type := mkBrainResponse {
  reply : string;
  suggestedChanges : option MindMapChangeProposal
}.

(** One entry of [event.results]: its [isFinal] flag and the transcript of
    its first alternative. *)
Record SpeechResult : Type := mkSpeechResult {
  isFinal : bool;
  transcript : string
}.

Record ChatState : Type := mkChatState {
  messages : list ChatMessage.t;
  input : string;
  isProcessing : bool;
  isListening : bool
}.

Definition initialChat : ChatState :=
  {| messages := []; input := EmptyString; isProcessing := false;
     isListening := false |}.

(** The line feed of ["\n"]. *)
Definition lineFeed : Ascii.ascii := Ascii.ascii_of_nat 10.

Definition appliedNote : string :=
  String lineFeed (String lineFeed "(Changes applied to mind map)").

Definition errorReply : string :=
  "I encountered an error processing your input. My neural pathways might be congested.".

(** The updater of [handleApply] for one message (line 122). *)
Definition markApplied (id : string) (m : ChatMessage.t) : ChatMessage.t :=
  if bool_decide (ChatMessage.id m = id)
  then ChatMessage.mk (ChatMessage.id m) (ChatMessage.role m)
         (ChatMessage.content m +:+ appliedNote) (ChatMessage.timestamp m)
         None (ChatMessage.attachments m)
  else m.

(** The updater of the Ignore button for one message (line 189). *)
Definition dropSuggestion (id : string) (m : ChatMessage.t) : ChatMessage.t :=
  if bool_decide (ChatMessage.id m = id)
  then ChatMessage.mk (ChatMessage.id m) (ChatMessage.role m)
         (ChatMessage.content m) (ChatMessage.timestamp m)
         None (ChatMessage.attachments m)
  else m.

Definition handleApply (id : string) (proposal : MindMapChangeProposal)
    (c : ChatState) : ChatState * list Event :=
  ({| messages := markApplied id <$> messages c;
      input := input c;
      isProcessing := isProcessing c;
      isListening := isListening c |},
   [ApplyChanges proposal]).

Definition handleIgnore (id : string) (c : ChatState) : ChatState :=
  {| messages := dropSuggestion id <$> messages c;
     input := input c;
     isProcessing := isProcessing c;
     isListening := isListening c |}.

(** The two buttons exist only under a message that carries a suggestion
    (lines 174-196); a click is on the message at a position of the list. *)
Definition clickApply (i : nat) (c : ChatState) : ChatState * list Event :=
  match messages c !! i with
  | Some m =>
      match ChatMessage.suggestedChanges m with
      | Some proposal => handleApply (ChatMessage.id m) proposal c
      | None => (c, [])
      end
  | None => (c, [])
  end.

Definition clickIgnore (i : nat) (c : ChatState) : ChatState :=
  match messages c !! i with
  | Some m =>
      match ChatMessage.suggestedChanges m with
      | Some _ => handleIgnore (ChatMessage.id m) c
      | None => c
      end
  | None => c
  end.

(** The request [handleSend] started has answered: the [try] branch and
    [finally] (lines 95-105, 115-117). *)
Definition responseArrived (now stamp : Z) (response : BrainResponse)
    (c : ChatState) : ChatState :=
  {| messages :=
       messages c ++
       [ChatMessage.mk (pretty (now + 1)%Z) assistant (reply response) stamp
          (suggestedChanges response) None];
     input := input c;
     isProcessing := false;
     isListening := isListening c |}.

(** The request has failed: the [catch] branch and [finally]. *)
Definition requestFailed (now stamp : Z) (c : ChatState) : ChatState :=
  {| messages :=
       messages c ++
       [ChatMessage.mk (pretty (now + 1)%Z) assistant errorReply stamp
          None None];
     input := input c;
     isProcessing := false;
     isListening := isListening c |}.

(** [onChange] of the text field. *)
Definition typeInput (v : string) (c : ChatState) : ChatState :=
  {| messages := messages c; input := v; isProcessing := isProcessing c;
     isListening := isListening c |}.

(** [setIsListening(b)]: [onstart] with [true], [onerror] and [onend] with
    [false]. *)
Definition setIsListening (b : bool) (c : ChatState) : ChatState :=
  {| messages := messages c; input := input c;
     isProcessing := isProcessing c; isListening := b |}.

(** The loop of [onresult] (lines 38-44): the transcripts of the final
    results from [resultIndex] on, joined. *)
Definition finalTranscriptOf (resultIndex : nat) (results : list SpeechResult)
  : string :=
  foldl (λ finalTranscript r,
           if isFinal r then finalTranscript +:+ transcript r
           else finalTranscript)
        EmptyString (drop resultIndex results).

(** The handlers that call [String.prototype.trim] take the function as
    [trim]; nothing is assumed about it. *)
Section Trim.
Variable trim : string → string.

(** [handleSend] up to its [await] (lines 74-92).  Stopping the speech
    recognition writes no cell; its [onend] does, later. *)
Definition handleSend (now stamp : Z) (c : ChatState) : ChatState :=
  let textToSend := trim (input c) in
  if bool_decide (textToSend = EmptyString) && negb (isProcessing c) then c
  else
    {| messages :=
         messages c ++
         [ChatMessage.mk (pretty now) user textToSend stamp None None];
       input := EmptyString;
       isProcessing := true;
       isListening := isListening c |}.

(** [recognition.onresult] (lines 37-49) *)
Definition onresult (resultIndex : nat) (results : list SpeechResult)
    (c : ChatState) : ChatState :=
  let finalTranscript := finalTranscriptOf resultIndex results in
  if bool_decide (finalTranscript = EmptyString) then c
  else
    {| messages := messages c;
       input := trim (input c +:+ " " +:+ finalTranscript);
       isProcessing := isProcessing c;
       isListening := isListening c |}.

(** Everything that writes the cells of [ChatWindow]. *)
Inductive ChatEvent : Type :=
  | Send (now stamp : Z)
  | ResponseArrived (now stamp : Z) (response : BrainResponse)
  | RequestFailed (now stamp : Z)
  | ClickApply (i : nat)
  | ClickIgnore (i : nat)
  | TypeInput (v : string)
  | RecognitionResult (resultIndex : nat) (results : list SpeechResult)
  | RecognitionStarted
  | RecognitionStopped.

Definition chatHandle (c : ChatState) (ev : ChatEvent)
  : ChatState * list Event :=
  match ev with
  | Send now stamp => (handleSend now stamp c, [])
  | ResponseArrived now stamp response =>
      (responseArrived now stamp response c, [])
  | RequestFailed now stamp => (requestFailed now stamp c, [])
  | ClickApply i => clickApply i c
  | ClickIgnore i => (clickIgnore i c, [])
  | TypeInput v => (typeInput v c, [])
  | RecognitionResult resultIndex results =>
      (onresult resultIndex results c, [])
  | RecognitionStarted => (setIsListening true c, [])
  | RecognitionStopped => (setIsListening false c, [])
  end.

(** A chat session: the cells at its end and the events raised in [App],
    in order. *)
Definition chatRun (c : ChatState) (evs : list ChatEvent)
  : ChatState * list Event :=
  foldl (λ acc ev, let '(c', raised) := chatHandle acc.1 ev in
                   (c', acc.2 ++ raised))
        (c, []) evs.
End Trim.

(** ** Reading sessions *)

(** The task list of the last extraction that arrived, if one did. *)
Definition lastSync (evs : list Event) : option (list Task.t) :=
  foldl (λ acc ev, match ev with
                   | SyncSucceeded extractedTasks => Some extractedTasks
                   | _ => acc
                   end) None evs.

(** The events handled by a call of [setMindMap]. *)
Definition writesMindMap (ev : Event) : bool :=
  match ev with
  | ApplyChanges _ | UpdateTask _ | UpdateNode _ => true
  | _ => false
  end.

(** The messages under which the two buttons are shown. *)
Definition pending (c : ChatState) : list ChatMessage.t :=
  filter (λ m, is_Some (ChatMessage.suggestedChanges m)) (messages c).

(** The answers that bring a suggestion. *)
Definition bringsSuggestion (ev : ChatEvent) : bool :=
  match ev with
  | ResponseArrived _ _ response =>
      bool_decide (is_Some (suggestedChanges response))
  | _ => false
  end.

(** What a message keeps for life: its id, role and timestamp. *)
Definition messageKey (m : ChatMessage.t) : string * Role * Z :=
  (ChatMessage.id m, ChatMessage.role m, ChatMessage.timestamp m).

(** What a recognition event brings for good: the transcripts of the final
    results from [resultIndex] on, one behind the other. *)
Definition spoken (resultIndex : nat) (results : list SpeechResult) : string :=
  foldr String.append EmptyString
    (transcript <$> filter (λ r, isFinal r) (drop resultIndex results)).

(** ** More inputs *)

(** [work] as the edit form of [MindMap] may hand it back: the stored
    object with a new label. *)
Definition workSeed : MindNode.t :=
  seedNode "work" "Work" "💼" "Professional life and goals." 150 50.

Definition workRenamed : MindNode.t :=
  seedNode "work" "Career" "💼" "Professional life and goals." 150 50.

(** The copy of [work] that the simulation has moved. *)
Definition workDragged : MindNode.t :=
  seedNode "work" "Work" "💼" "Professional life and goals." 412 (-97).

(** Two partials for [work] in one proposal. *)
Definition workLabel : MindNode.t :=
  plainNode (Some "work") (Some "Job") None None.

Definition workDescription : MindNode.t :=
  plainNode (Some "work") None None (Some "What pays the bills.").

(** A task without id, as the extraction may return it. *)
Definition idlessTask : Task.t :=
  {| Task.id := None; Task.title := Some "Stretch";
     Task.dueDate := None; Task.reminderDate := None;
     Task.urgency := Some "low"; Task.completed := Some false;
     Task.nodeId := Some "health" |}.

Definition urgentTask : Task.t :=
  {| Task.id := Some "t2"; Task.title := Some "Book the doctor";
     Task.dueDate := Some "Monday"; Task.reminderDate := None;
     Task.urgency := Some "high"; Task.completed := Some false;
     Task.nodeId := Some "health" |}.

(** A chat in which the assistant has answered with [gymProposal]. *)
Definition gymAnswer : BrainResponse :=
  {| reply := "I can add the gym under Health.";
     suggestedChanges := Some gymProposal |}.

Definition chatWithSuggestion : ChatState :=
  responseArrived 1700000000500 1700000000501 gymAnswer
    {| messages :=
         [ChatMessage.mk "1700000000000" user "I joined a gym" 1700000000000
            None None];
       input := EmptyString; isProcessing := true; isListening := false |}.

(** ** Facts about the JavaScript primitives *)

Lemma strict_eq_true a b : strict_eq a b = true ↔ a = b.
Proof. unfold strict_eq. apply bool_decide_eq_true. Qed.

Lemma strict_eq_false a b : strict_eq a b = false ↔ a ≠ b.
Proof. unfold strict_eq. apply bool_decide_eq_false. Qed.

Lemma strict_eq_refl a : strict_eq a a = true.
Proof. by apply strict_eq_true. Qed.

Section Find.
Context {A : Type} (p : A → bool).

Lemma find_None (l : list A) :
  find p l = None ↔ ∀ a, a ∈ l → p a = false.
Proof.
  induction l as [|b l IH]; simpl.
  - split; [intros _ a Ha; inversion Ha | done].
  - destruct (p b) eqn:Hb.
    + split; [done | intros H; specialize (H b (list_elem_of_here _ _)); congruence].
    + rewrite IH. split.
      * intros H a Ha. apply elem_of_cons in Ha as [-> | Ha]; auto.
      * intros H a Ha. apply H. by apply list_elem_of_further.
Qed.

Lemma find_Some (l : list A) (a : A) :
  find p l = Some a → a ∈ l ∧ p a = true.
Proof.
  induction l as [|b l IH]; simpl; [done |].
  destruct (p b) eqn:Hb.
  - intros [= <-]. split; [apply list_elem_of_here | done].
  - intros H. destruct (IH H). split; [by apply list_elem_of_further | done].
Qed.

Lemma findIndex_None (l : list A) :
  findIndex p l = None ↔ ∀ a, a ∈ l → p a = false.
Proof.
  induction l as [|b l IH]; simpl.
  - split; [intros _ a Ha; inversion Ha | done].
  - destruct (p b) eqn:Hb.
    + split; [done | intros H; specialize (H b (list_elem_of_here _ _)); congruence].
    + rewrite fmap_None, IH. split.
      * intros H a Ha. apply elem_of_cons in Ha as [-> | Ha]; auto.
      * intros H a Ha. apply H. by apply list_elem_of_further.
Qed.

(** [findIndex] answers the position of the first match. *)
Lemma findIndex_Some (l : list A) (i : nat) :
  findIndex p l = Some i ↔
  ∃ a, l !! i = Some a ∧ p a = true ∧
       ∀ j b, j < i → l !! j = Some b → p b = false.
Proof.
  revert i. induction l as [|b l IH]; intros i; simpl.
  - split; [done | by intros (a & ? & _)].
  - destruct (p b) eqn:Hb.
    + split.
      * intros [= <-]. exists b. split_and!; [done | done | lia].
      * intros (a & Ha & Hp & Hlt). destruct i as [|i]; [done |].
        specialize (Hlt 0 b ltac:(lia) eq_refl). congruence.
    + split.
      * intros (k & Hk & ->)%fmap_Some.
        apply IH in Hk as (a & Ha & Hp & Hlt).
        exists a. split_and!; [done | done |].
        intros [|j] c Hj Hc; simpl in Hc; [congruence |].
        apply (Hlt j); [lia | done].
      * intros (a & Ha & Hp & Hlt). destruct i as [|i]; simpl in Ha.
        { congruence. }
        apply fmap_Some. exists i. split; [| done].
        apply IH. exists a. split_and!; [done | done |].
        intros j c Hj Hc. apply (Hlt (S j)); [lia | done].
Qed.

Lemma findIndex_lookup (l : list A) (i : nat) :
  findIndex p l = Some i → is_Some (l !! i).
Proof. intros (a & Ha & _)%findIndex_Some. by exists a. Qed.
End Find.

(** The two searches only look at the keys of the elements. *)
Lemma findIndex_fmap {A B} (f : A → B) (p : B → bool) (l : list A) :
  findIndex (λ a, p (f a)) l = findIndex p (f <$> l).
Proof.
  induction l as [|a l IH]; simpl; [done |].
  destruct (p (f a)); [done |]. by rewrite IH.
Qed.

(** ** Pushing an element unless its id is taken

    [addNode] and [addEdge] are the same loop body over two element types;
    the facts about it are proved once, for any key function. *)
Section PushNew.
Context {A : Type} (key : A → option string).

Lemma pushNew_taken l a : key a ∈ key <$> l → pushNew key l a = l.
Proof.
  intros (b & Hk & Hb)%list_elem_of_fmap. unfold pushNew.
  destruct (find _ l) eqn:Hf; [done |].
  rewrite find_None in Hf. specialize (Hf b Hb).
  apply strict_eq_false in Hf. congruence.
Qed.

Lemma pushNew_fresh l a : key a ∉ key <$> l → pushNew key l a = l ++ [a].
Proof.
  intros Hn. unfold pushNew.
  destruct (find _ l) as [b|] eqn:Hf; [| done].
  apply find_Some in Hf as [Hb Hk]. apply strict_eq_true in Hk.
  destruct Hn. rewrite <- Hk. by apply list_elem_of_fmap_2.
Qed.

Lemma pushNew_cases l a :
  (key a ∈ key <$> l ∧ pushNew key l a = l) ∨
  ((key a ∉ key <$> l) ∧ pushNew key l a = l ++ [a]).
Proof.
  destruct (decide (key a ∈ key <$> l)) as [Hin | Hn].
  - left. split; [done | by apply pushNew_taken].
  - right. split; [done | by apply pushNew_fresh].
Qed.

(** After the loop every pushed id is present. *)
Lemma foldl_pushNew_keys_old l adds k :
  k ∈ key <$> l → k ∈ key <$> foldl (pushNew key) l adds.
Proof.
  revert l. induction adds as [|a adds IH]; intros l Hk; simpl; [done |].
  apply IH. destruct (pushNew_cases l a) as [[_ ->] | [_ ->]]; [done |].
  rewrite fmap_app. apply elem_of_app. by left.
Qed.

Lemma foldl_pushNew_keys_new l adds a :
  a ∈ adds → key a ∈ key <$> foldl (pushNew key) l adds.
Proof.
  revert l. induction adds as [|b adds IH]; intros l Ha; [inversion Ha |].
  apply elem_of_cons in Ha as [<- | Ha]; simpl; [| by apply IH].
  apply foldl_pushNew_keys_old.
  destruct (pushNew_cases l a) as [[? ->] | [_ ->]]; [done |].
  rewrite fmap_app. apply elem_of_app. right. simpl. apply list_elem_of_here.
Qed.

(** The loop is a no-op when every id is already there. *)
Lemma foldl_pushNew_taken l adds :
  (∀ a, a ∈ adds → key a ∈ key <$> l) → foldl (pushNew key) l adds = l.
Proof.
  induction adds as [|a adds IH]; intros H; simpl; [done |].
  rewrite pushNew_taken by (apply H, list_elem_of_here).
  apply IH. intros b Hb. by apply H, list_elem_of_further.
Qed.

(** The loop only appends, and only elements of [adds] with a new id. *)
Lemma foldl_pushNew_app l adds :
  ∃ l', foldl (pushNew key) l adds = l ++ l' ∧
        ∀ b, b ∈ l' → b ∈ adds ∧ key b ∉ key <$> l.
Proof.
  revert l. induction adds as [|a adds IH]; intros l; simpl.
  - exists []. split; [by rewrite app_nil_r | intros b Hb; inversion Hb].
  - destruct (pushNew_cases l a) as [[Hin ->] | [Hn ->]].
    + destruct (IH l) as (l' & -> & Hl'). exists l'. split; [done |].
      intros b Hb. destruct (Hl' b Hb). split; [by apply list_elem_of_further | done].
    + destruct (IH (l ++ [a])) as (l' & -> & Hl'). exists (a :: l').
      split; [by rewrite <- app_assoc |].
      intros b [-> | Hb]%elem_of_cons; [split; [apply list_elem_of_here | done] |].
      destruct (Hl' b Hb) as [? Hk]. split; [by apply list_elem_of_further |].
      intros Hin. apply Hk. rewrite fmap_app. apply elem_of_app. by left.
Qed.

Lemma pushNew_NoDup l a :
  NoDup (key <$> l) → NoDup (key <$> pushNew key l a).
Proof.
  intros Hl. destruct (pushNew_cases l a) as [[_ ->] | [Hn ->]]; [done |].
  rewrite fmap_app. apply NoDup_app. split_and!; [done | | apply NoDup_singleton].
  intros k Hk [-> | Habs]%elem_of_cons; [done | inversion Habs].
Qed.

Lemma foldl_pushNew_NoDup l adds :
  NoDup (key <$> l) → NoDup (key <$> foldl (pushNew key) l adds).
Proof.
  revert l. induction adds as [|a adds IH]; intros l Hl; simpl; [done |].
  by apply IH, pushNew_NoDup.
Qed.
End PushNew.

Lemma addNode_pushNew : addNode = pushNew MindNode.id.
Proof. reflexivity. Qed.

Lemma addEdge_pushNew : addEdge = pushNew MindEdge.id.
Proof. reflexivity. Qed.

(** ** The algebra of object spread

    [{...a, ...b}] is associative, [{}] is neutral on both sides and
    [{...a, ...a}] is [a]: nodes form an idempotent monoid. *)

Lemma spread_field_assoc {A} (a b c : option A) :
  spread_field (spread_field a b) c = spread_field a (spread_field b c).
Proof. by destruct c. Qed.

Lemma spread_field_idemp {A} (a : option A) : spread_field a a = a.
Proof. by destruct a. Qed.

Lemma spread_assoc a b c : spread (spread a b) c = spread a (spread b c).
Proof. unfold spread; simpl. f_equal; apply spread_field_assoc. Qed.

Lemma spread_empty_r a : spread a MindNode.empty = a.
Proof. by destruct a. Qed.

Lemma spread_empty_l a : spread MindNode.empty a = a.
Proof.
  destruct a as [i l t d ic de da r c p px py]. unfold spread; simpl.
  f_equal; match goal with |- spread_field _ ?o = _ => by destruct o end.
Qed.

Lemma spread_idemp a : spread a a = a.
Proof.
  destruct a. unfold spread; simpl. f_equal; apply spread_field_idemp.
Qed.

(** The spread keeps the id when the update carries the same one. *)
Lemma spread_id n u :
  MindNode.id n = MindNode.id u → MindNode.id (spread n u) = MindNode.id n.
Proof. intros H. simpl. rewrite <- H. apply spread_field_idemp. Qed.

(** ** Facts about [updateNode] *)

Lemma indexOfId_ids k ns ns' :
  nodeIds ns = nodeIds ns' → indexOfId k ns = indexOfId k ns'.
Proof.
  intros H. unfold indexOfId.
  rewrite !(findIndex_fmap MindNode.id (λ i, strict_eq i k)).
  unfold nodeIds in H. by rewrite H.
Qed.

Lemma indexOfId_Some k ns i :
  indexOfId k ns = Some i →
  ∃ n, ns !! i = Some n ∧ MindNode.id n = k.
Proof.
  intros (n & Hn & Hk & _)%findIndex_Some. exists n.
  split; [done | by apply strict_eq_true].
Qed.

Lemma updateNode_found ns u i n :
  indexOfId (MindNode.id u) ns = Some i → ns !! i = Some n →
  updateNode ns u = <[i := spread n u]> ns.
Proof. unfold updateNode, indexOfId. by intros -> ->. Qed.

Lemma updateNode_missing ns u :
  indexOfId (MindNode.id u) ns = None → updateNode ns u = ns.
Proof. unfold updateNode, indexOfId. by intros ->. Qed.

(** What [updateNode] leaves at each position. *)
Lemma updateNode_lookup ns u i :
  updateNode ns u !! i =
  (λ n, if decide (indexOfId (MindNode.id u) ns = Some i)
        then spread n u else n) <$> ns !! i.
Proof.
  destruct (indexOfId (MindNode.id u) ns) as [j|] eqn:Hj.
  - destruct (indexOfId_Some _ _ _ Hj) as (n & Hn & _).
    rewrite (updateNode_found _ _ _ _ Hj Hn).
    destruct (decide (j = i)) as [-> | Hne].
    + rewrite list_lookup_insert_eq by (by eapply lookup_lt_Some).
      rewrite Hn. cbn [fmap option_fmap option_map]. by case_decide.
    + rewrite list_lookup_insert_ne by done.
      destruct (ns !! i); cbn [fmap option_fmap option_map]; [| done].
      case_decide; [congruence | done].
  - rewrite updateNode_missing by done.
    destruct (ns !! i); cbn [fmap option_fmap option_map]; [| done].
    by case_decide.
Qed.

(** No update changes an id, a position or the number of nodes. *)
Lemma updateNode_ids ns u : nodeIds (updateNode ns u) = nodeIds ns.
Proof.
  apply list_eq. intros i. unfold nodeIds.
  rewrite !list_lookup_fmap, updateNode_lookup.
  destruct (ns !! i) as [n|] eqn:Hn; simpl; [| done].
  case_decide as Hi; [| done]. f_equal.
  apply indexOfId_Some in Hi as (n' & Hn' & Hk).
  apply spread_id. congruence.
Qed.

Lemma foldl_updateNode_ids ns us :
  nodeIds (foldl updateNode ns us) = nodeIds ns.
Proof.
  revert ns. induction us as [|u us IH]; intros ns; simpl; [done |].
  by rewrite IH, updateNode_ids.
Qed.

Lemma gather_ids ns ns' i us :
  nodeIds ns = nodeIds ns' → gather ns i us = gather ns' i us.
Proof.
  intros H. induction us as [|u us IH]; simpl; [done |].
  by rewrite IH, (indexOfId_ids _ _ _ H).
Qed.

(** The whole [nodesToUpdate] loop, position by position. *)
Lemma foldl_updateNode_lookup ns us i :
  foldl updateNode ns us !! i = (λ n, spread n (gather ns i us)) <$> ns !! i.
Proof.
  revert ns. induction us as [|u us IH]; intros ns; simpl.
  - destruct (ns !! i); simpl; [| done]. by rewrite spread_empty_r.
  - rewrite IH, updateNode_lookup.
    rewrite (gather_ids _ ns) by apply updateNode_ids.
    destruct (ns !! i) as [n|]; simpl; [| done].
    case_decide; [by rewrite spread_assoc |].
    by rewrite spread_empty_l.
Qed.

(** Running the loop a second time changes nothing. *)
Lemma foldl_updateNode_twice ns us :
  foldl updateNode (foldl updateNode ns us) us = foldl updateNode ns us.
Proof.
  apply list_eq. intros i.
  rewrite foldl_updateNode_lookup.
  rewrite (gather_ids _ ns) by apply foldl_updateNode_ids.
  rewrite foldl_updateNode_lookup.
  destruct (ns !! i) as [n|]; simpl; [| done].
  by rewrite spread_assoc, spread_idemp.
Qed.

(** ** The handlers on the scenarios *)

(** A malformed node never has the type [MindNode]. *)
Lemma malformedNode_not_typed n : malformedNode n = true → typedNode n = false.
Proof.
  unfold malformedNode, typedNode, among, outside.
  destruct (MindNode.id n), (MindNode.label n), (MindNode.description n),
    (MindNode.type n) as [t|], (MindNode.priority n) as [q|]; simpl;
    try done;
    repeat (case_bool_decide; simpl; try done);
    try (exfalso; by eauto using mk_is_Some).
Qed.

(** The proposals and tasks of the scenarios have the types the handlers
    declare, except [malformedProposal]. *)
Example scenario_inputs_are_typed :
  typedProposal gymProposal = true ∧
  typedProposal repeatingProposal = true ∧
  typedProposal readdAndRename = true ∧
  typedProposal readdOnly = true ∧
  typedProposal looseProposal = true ∧
  typedProposal malformedProposal = false ∧
  typedTask reportTask = true ∧
  typedTask reportDone = true ∧
  typedTask orphanTask = true.
Proof. by split_and!. Qed.

Example seed_graph_merge :
  nodeIds (nodes (applyChanges gymProposal INITIAL_DATA))
    = [Some "me"; Some "work"; Some "health"; Some "gym"] ∧
  edgeIds (edges (applyChanges gymProposal INITIAL_DATA))
    = [Some "e1"; Some "e2"; Some "e3"].
Proof. split; reflexivity. Qed.

Example repeated_ids_are_dropped :
  nodeIds (nodes (applyChanges repeatingProposal INITIAL_DATA))
    = [Some "me"; Some "work"; Some "health"; Some "gym"] ∧
  edgeIds (edges (applyChanges repeatingProposal INITIAL_DATA))
    = [Some "e1"; Some "e2"; Some "e3"].
Proof. split; reflexivity. Qed.

(** The first [gym] entry is the one kept, and the update is spread over
    it. *)
Example repeated_gym_node :
  nodes (applyChanges repeatingProposal INITIAL_DATA) !! 3
  = Some (plainNode (Some "gym") (Some "Sports hall") (Some "resource")
            (Some "Where I train.")).
Proof. reflexivity. Qed.

(** [readdAndRename]: the re-add is dropped, the update is applied. *)
Example readd_and_rename :
  MindNode.label <$> nodes (applyChanges readdAndRename INITIAL_DATA)
  = [Some "My Consciousness"; Some "Job"; Some "Health"].
Proof. reflexivity. Qed.

(** ** Idempotence of proposal application *)

Lemma applyChanges_node_ids p g :
  nodeIds (nodes (applyChanges p g))
  = nodeIds (foldl addNode (nodes g) (or_empty (nodesToAdd p))).
Proof. apply foldl_updateNode_ids. Qed.

Lemma applyChanges_twice p g :
  applyChanges p (applyChanges p g) = applyChanges p g.
Proof.
  assert (foldl addNode (nodes (applyChanges p g)) (or_empty (nodesToAdd p))
          = nodes (applyChanges p g)) as Hadd.
  { apply (foldl_pushNew_taken MindNode.id). intros a Ha.
    fold (nodeIds (nodes (applyChanges p g))).
    rewrite applyChanges_node_ids.
    by apply (foldl_pushNew_keys_new MindNode.id). }
  assert (foldl addEdge (edges (applyChanges p g)) (or_empty (edgesToAdd p))
          = edges (applyChanges p g)) as Hedge.
  { apply (foldl_pushNew_taken MindEdge.id). intros e He.
    by apply (foldl_pushNew_keys_new MindEdge.id). }
  unfold applyChanges at 1. rewrite Hadd, Hedge.
  unfold applyChanges; simpl. f_equal. apply foldl_updateNode_twice.
Qed.

(** C2. Applying one proposal twice in a row leaves the state exactly as
    one application does: the node list, the edge list and every other
    cell are those of the first application. *)
Theorem handleApplyChanges_twice proposal st :
  handleApplyChanges proposal (handleApplyChanges proposal st)
  = handleApplyChanges proposal st.
Proof.
  unfold handleApplyChanges, setMindMap; simpl.
  by rewrite applyChanges_twice.
Qed.

(** ** Task edits and the task list *)

(** C3, as the specification words it, fails: ticking the checkbox of a
    task leaves the task list without the ticked task. *)
Lemma edited_task_not_in_list :
  ¬ (reportDone ∈ tasks (updateTaskInMindMap reportDone syncedState)).
Proof. intros H. apply (bool_decide_pack _) in H. vm_compute in H. done. Qed.

(** Only the arrival of an extraction writes the task list. *)
Lemma run_keeps_tasks st evs :
  Forall (λ ev, isSyncSucceeded ev = false) evs →
  tasks (run st evs) = tasks st.
Proof.
  unfold run. intros H. revert st.
  induction H as [|ev evs Hev _ IH]; intros st; simpl; [done |].
  rewrite IH. by destruct ev.
Qed.

(** C3, amended. A task edit writes the mind map only: the task list is the
    one from before the edit, it stays so through every event that is not
    the arrival of an extraction, and it holds new values once a sync has
    delivered them. *)
Theorem updateTaskInMindMap_keeps_tasks updatedTask st :
  tasks (updateTaskInMindMap updatedTask st) = tasks st ∧
  (∀ evs, Forall (λ ev, isSyncSucceeded ev = false) evs →
          tasks (run (updateTaskInMindMap updatedTask st) evs) = tasks st) ∧
  (∀ extractedTasks,
     tasks (syncSucceeded extractedTasks (updateTaskInMindMap updatedTask st))
     = extractedTasks).
Proof.
  split_and!.
  - reflexivity.
  - intros evs Hevs. by rewrite run_keeps_tasks.
  - reflexivity.
Qed.

Lemma updateTaskInMindMap_keeps_tasks_witness :
  Forall (λ ev, isSyncSucceeded ev = false)
    [SyncStarted; UpdateNode ghost; SyncFailed; CloseTaskWidget] ∧
  tasks (run (updateTaskInMindMap reportDone syncedState)
           [SyncStarted; UpdateNode ghost; SyncFailed; CloseTaskWidget])
  = [reportTask].
Proof.
  assert (Forall (λ ev, isSyncSucceeded ev = false)
            [SyncStarted; UpdateNode ghost; SyncFailed; CloseTaskWidget])
    as H.
  { repeat constructor. }
  split; [exact H |].
  exact (proj1 (proj2 (updateTaskInMindMap_keeps_tasks reportDone syncedState))
           _ H).
Defined.

(** ** Updates and edits that find no node *)

Lemma fmap_fixed {A} (f : A → A) (l : list A) :
  (∀ a, a ∈ l → f a = a) → f <$> l = l.
Proof.
  induction l as [|a l IH]; intros H; simpl; [done |].
  rewrite H by apply list_elem_of_here. f_equal.
  apply IH. intros b Hb. by apply H, list_elem_of_further.
Qed.

Lemma indexOfId_None k ns : k ∉ nodeIds ns → indexOfId k ns = None.
Proof.
  intros Hk. apply findIndex_None. intros n Hn.
  apply strict_eq_false. intros <-. apply Hk. by apply list_elem_of_fmap_2.
Qed.

(** C7. An update whose id no node of the store carries changes nothing:
    the node list after [updateNode] is the node list before. *)
Theorem updateNode_unknown_id ns update :
  MindNode.id update ∉ nodeIds ns → updateNode ns update = ns.
Proof. intros H. by apply updateNode_missing, indexOfId_None. Qed.

Lemma updateNode_unknown_id_witness :
  (MindNode.id ghost ∉ nodeIds (nodes INITIAL_DATA)) ∧
  updateNode (nodes INITIAL_DATA) ghost = nodes INITIAL_DATA.
Proof.
  assert (MindNode.id ghost ∉ nodeIds (nodes INITIAL_DATA)) as H.
  { intros H. apply (bool_decide_pack _) in H. vm_compute in H. done. }
  split; [exact H | exact (updateNode_unknown_id _ _ H)].
Defined.

(** C10. A task edit naming a node id that no node of the graph carries
    leaves the graph as it was, nodes and edges alike (and with it the
    whole state). *)
Theorem updateTaskInMindMap_unknown_node updatedTask st :
  Task.nodeId updatedTask ∉ nodeIds (nodes (mindMap st)) →
  updateTaskInMindMap updatedTask st = st ∧
  nodes (mindMap (updateTaskInMindMap updatedTask st)) = nodes (mindMap st) ∧
  edges (mindMap (updateTaskInMindMap updatedTask st)) = edges (mindMap st).
Proof.
  intros H.
  assert (taskIntoMindMap updatedTask (mindMap st) = mindMap st) as Hg.
  { destruct (mindMap st) as [ns es]. unfold taskIntoMindMap. simpl in *.
    f_equal. apply fmap_fixed. intros n Hn.
    destruct (strict_eq _ _) eqn:Heq; [| done].
    apply strict_eq_true in Heq. destruct H. rewrite <- Heq.
    by apply list_elem_of_fmap_2. }
  unfold updateTaskInMindMap, setMindMap. rewrite Hg.
  by destruct st.
Qed.

Lemma updateTaskInMindMap_unknown_node_witness :
  (Task.nodeId orphanTask ∉ nodeIds (nodes (mindMap initialState))) ∧
  updateTaskInMindMap orphanTask initialState = initialState.
Proof.
  assert (Task.nodeId orphanTask ∉ nodeIds (nodes (mindMap initialState)))
    as H.
  { intros H. apply (bool_decide_pack _) in H. vm_compute in H. done. }
  split; [exact H |].
  exact (proj1 (updateTaskInMindMap_unknown_node _ _ H)).
Defined.

(** ** Task write-back *)

Lemma writeTask_taskWritten n t : taskWritten n t (writeTask n t).
Proof. unfold taskWritten. by split_and!. Qed.

(** C5. When the node at some position of the graph carries the id the
    task names, the task edit leaves at that position a node whose label,
    date, reminderDate, priority and isCompleted are the task's title,
    dueDate, reminderDate, urgency and completed, its other fields being
    those of the node before. *)
Theorem updateTaskInMindMap_writes_node updatedTask st i n :
  nodes (mindMap st) !! i = Some n →
  MindNode.id n = Task.nodeId updatedTask →
  ∃ n', nodes (mindMap (updateTaskInMindMap updatedTask st)) !! i = Some n' ∧
        taskWritten n updatedTask n'.
Proof.
  intros Hn Hid. exists (writeTask n updatedTask).
  split; [| apply writeTask_taskWritten].
  unfold updateTaskInMindMap, setMindMap, taskIntoMindMap; simpl.
  rewrite list_lookup_fmap, Hn; simpl.
  by rewrite (proj2 (strict_eq_true _ _) Hid).
Qed.

Lemma updateTaskInMindMap_writes_node_witness :
  nodes (mindMap stateN1) !! 0 = Some nodeN1 ∧
  MindNode.id nodeN1 = Task.nodeId taskT ∧
  ∃ n', nodes (mindMap (updateTaskInMindMap taskT stateN1)) !! 0 = Some n' ∧
        taskWritten nodeN1 taskT n'.
Proof.
  split; [reflexivity |]. split; [reflexivity |].
  exact (updateTaskInMindMap_writes_node taskT stateN1 0 nodeN1
           eq_refl eq_refl).
Defined.

Example task_write_back_round_trip :
  ∃ n', nodes (mindMap (updateTaskInMindMap taskT stateN1)) = [n'] ∧
        MindNode.label n' = Some "New" ∧
        MindNode.priority n' = Some "high" ∧
        MindNode.isCompleted n' = Some true.
Proof. eexists. by split_and!. Qed.

(** ** Node updates *)

Lemma spread_shallowMerged n u : shallowMerged n u (spread n u).
Proof.
  unfold shallowMerged, mergedField; simpl.
  split_and!; match goal with |- match ?o with _ => _ end => by destruct o end.
Qed.

Lemma indexOfId_is_Some k ns : k ∈ nodeIds ns → is_Some (indexOfId k ns).
Proof.
  intros (n & -> & Hn)%list_elem_of_fmap.
  destruct (indexOfId _ ns) eqn:Hi; [by eexists |].
  unfold indexOfId in Hi. rewrite findIndex_None in Hi.
  specialize (Hi n Hn). by rewrite strict_eq_refl in Hi.
Qed.

(** C6. An update whose id some node of the store carries is merged into
    the first such node: every field the partial has takes the partial's
    value, every field it lacks keeps the node's value, and all other
    positions of the store are as before. *)
Theorem updateNode_shallow_merge ns update :
  MindNode.id update ∈ nodeIds ns →
  ∃ i n n',
    ns !! i = Some n ∧ MindNode.id n = MindNode.id update ∧
    (∀ j m, j < i → ns !! j = Some m → MindNode.id m ≠ MindNode.id update) ∧
    updateNode ns update !! i = Some n' ∧ shallowMerged n update n' ∧
    (∀ j, j ≠ i → updateNode ns update !! j = ns !! j) ∧
    length (updateNode ns update) = length ns.
Proof.
  intros [i Hi]%indexOfId_is_Some.
  pose proof Hi as (n & Hn & Hp & Hfirst)%findIndex_Some.
  exists i, n, (spread n update).
  rewrite (updateNode_found _ _ _ _ Hi Hn).
  split_and!.
  - done.
  - by apply strict_eq_true.
  - intros j m Hj Hm. apply strict_eq_false. by eapply Hfirst.
  - apply list_lookup_insert_eq. by eapply lookup_lt_Some.
  - apply spread_shallowMerged.
  - intros j Hj. by apply list_lookup_insert_ne.
  - apply length_insert.
Qed.

Lemma updateNode_shallow_merge_witness :
  MindNode.id updateX ∈ nodeIds [nodeX] ∧
  ∃ i n n',
    [nodeX] !! i = Some n ∧ MindNode.id n = MindNode.id updateX ∧
    (∀ j m, j < i → [nodeX] !! j = Some m →
            MindNode.id m ≠ MindNode.id updateX) ∧
    updateNode [nodeX] updateX !! i = Some n' ∧ shallowMerged n updateX n' ∧
    (∀ j, j ≠ i → updateNode [nodeX] updateX !! j = [nodeX] !! j) ∧
    length (updateNode [nodeX] updateX) = length [nodeX].
Proof.
  assert (MindNode.id updateX ∈ nodeIds [nodeX]) as H.
  { apply list_elem_of_here. }
  split; [exact H | exact (updateNode_shallow_merge [nodeX] updateX H)].
Defined.

Example update_preserves_unspecified_fields :
  updateNode [nodeX] updateX
  = [plainNode (Some "X") (Some "L2") (Some "concept") (Some "D")].
Proof. reflexivity. Qed.

(** ** Distinct ids along a session *)

Lemma taskIntoMindMap_ids t g :
  nodeIds (nodes (taskIntoMindMap t g)) = nodeIds (nodes g).
Proof.
  unfold taskIntoMindMap, nodeIds; simpl.
  rewrite <- list_fmap_compose. apply list_fmap_ext. intros i n _; simpl.
  by destruct (strict_eq _ _).
Qed.

Lemma nodeIntoMindMap_ids n g :
  nodeIds (nodes (nodeIntoMindMap n g)) = nodeIds (nodes g).
Proof.
  unfold nodeIntoMindMap, nodeIds; simpl.
  rewrite <- list_fmap_compose. apply list_fmap_ext. intros i m _; simpl.
  destruct (strict_eq _ _) eqn:Heq; [| done].
  by apply strict_eq_true in Heq.
Qed.

Lemma applyChanges_distinctIds p g :
  distinctIds g → distinctIds (applyChanges p g).
Proof.
  intros [Hn He]. split.
  - rewrite applyChanges_node_ids.
    by apply (foldl_pushNew_NoDup MindNode.id).
  - by apply (foldl_pushNew_NoDup MindEdge.id).
Qed.

Lemma handle_distinctIds st ev :
  distinctIds (mindMap st) → distinctIds (mindMap (handle st ev)).
Proof.
  intros H. destruct ev; simpl; try done.
  - by apply applyChanges_distinctIds.
  - destruct H as [Hn He]. split; [| done].
    by rewrite taskIntoMindMap_ids.
  - destruct H as [Hn He]. split; [| done].
    by rewrite nodeIntoMindMap_ids.
Qed.

(** C9. From a store whose node ids are distinct and whose edge ids are
    distinct, any number of direct [addNode] and [addEdge] calls, and any
    session of proposal applications (whatever ids the lists of a proposal
    repeat), task edits, node edits and syncs, ends in a store whose node
    ids are distinct and whose edge ids are distinct. *)
Theorem ids_stay_distinct st :
  distinctIds (mindMap st) →
  (∀ newNodes newEdges,
     NoDup (nodeIds (foldl addNode (nodes (mindMap st)) newNodes)) ∧
     NoDup (edgeIds (foldl addEdge (edges (mindMap st)) newEdges))) ∧
  (∀ evs, distinctIds (mindMap (run st evs))).
Proof.
  intros H. split.
  - intros newNodes newEdges. destruct H as [Hn He]. split.
    + by apply (foldl_pushNew_NoDup MindNode.id).
    + by apply (foldl_pushNew_NoDup MindEdge.id).
  - intros evs. revert st H. unfold run.
    induction evs as [|ev evs IH]; intros st H; simpl; [done |].
    by apply IH, handle_distinctIds.
Qed.

Lemma seed_distinctIds : distinctIds INITIAL_DATA.
Proof. split; apply (bool_decide_unpack _); vm_compute; exact I. Defined.

Lemma ids_stay_distinct_witness :
  distinctIds (mindMap initialState) ∧
  distinctIds
    (mindMap (run initialState
                [ApplyChanges repeatingProposal; UpdateTask reportDone;
                 ApplyChanges repeatingProposal; ApplyChanges gymProposal])).
Proof.
  split; [exact seed_distinctIds |].
  exact (proj2 (ids_stay_distinct initialState seed_distinctIds) _).
Defined.

(** ** Re-adding a node that exists *)

Lemma gather_untouched ns i us :
  (∀ u, u ∈ us → indexOfId (MindNode.id u) ns ≠ Some i) →
  gather ns i us = MindNode.empty.
Proof.
  induction us as [|u us IH]; intros H; simpl; [done |].
  rewrite decide_False by apply H, list_elem_of_here.
  rewrite IH; [done |]. intros v Hv. by apply H, list_elem_of_further.
Qed.

(** The nodes after [nodesToAdd] has been processed: the store's, followed
    by entries of [nodesToAdd] whose id the store did not have. *)
Lemma added_nodes g p :
  ∃ l', foldl addNode (nodes g) (or_empty (nodesToAdd p)) = nodes g ++ l' ∧
        ∀ b, b ∈ l' → b ∈ or_empty (nodesToAdd p) ∧
                      MindNode.id b ∉ nodeIds (nodes g).
Proof. apply (foldl_pushNew_app MindNode.id). Qed.

(** C8, as the specification words it, fails: a proposal that re-adds
    [work] and also holds an update for [work] changes the existing node. *)
Lemma readded_node_can_change :
  workAgain ∈ or_empty (nodesToAdd readdAndRename) ∧
  MindNode.id workAgain ∈ nodeIds (nodes INITIAL_DATA) ∧
  ¬ (∀ i n, nodes INITIAL_DATA !! i = Some n →
            MindNode.id n = MindNode.id workAgain →
            nodes (applyChanges readdAndRename INITIAL_DATA) !! i = Some n).
Proof.
  split_and!.
  - apply list_elem_of_here.
  - apply list_elem_of_further, list_elem_of_here.
  - intros H. specialize (H 1 _ eq_refl eq_refl). by vm_compute in H.
Qed.

(** C8, amended. When a proposal re-adds a node whose id the store has, no
    node with that id is inserted: every node of the result carrying the id
    sits at a position the store already had.  The existing node keeps its
    position, and keeps every field unless [nodesToUpdate] of the same
    proposal holds an entry with that id. *)
Theorem readded_node_is_ignored g p a i n :
  a ∈ or_empty (nodesToAdd p) →
  nodes g !! i = Some n →
  MindNode.id n = MindNode.id a →
  (∀ j m, nodes (applyChanges p g) !! j = Some m →
          MindNode.id m = MindNode.id a → j < length (nodes g)) ∧
  ((∀ u, u ∈ or_empty (nodesToUpdate p) → MindNode.id u ≠ MindNode.id a) →
   nodes (applyChanges p g) !! i = Some n).
Proof.
  intros Ha Hn Hid.
  destruct (added_nodes g p) as (l' & Hadd & Hl').
  assert (MindNode.id a ∈ nodeIds (nodes g)) as Hin.
  { rewrite <- Hid. apply list_elem_of_fmap_2. by eapply list_elem_of_lookup_2. }
  pose proof (lookup_lt_Some _ _ _ Hn) as Hlt.
  split.
  - intros j m Hm Hma.
    destruct (decide (j < length (nodes g))) as [| Hge]; [done |]. exfalso.
    assert (nodeIds (nodes (applyChanges p g)) !! j = Some (MindNode.id m))
      as Hj.
    { unfold nodeIds. by rewrite list_lookup_fmap, Hm. }
    rewrite applyChanges_node_ids, Hadd in Hj. unfold nodeIds in Hj.
    rewrite fmap_app, lookup_app_r in Hj by (rewrite length_fmap; lia).
    apply list_elem_of_lookup_2 in Hj.
    apply list_elem_of_fmap in Hj as (b & Hb & Hbl).
    destruct (Hl' b Hbl) as [_ Hfresh]. apply Hfresh. by rewrite <- Hb, Hma.
  - intros Hus. unfold applyChanges; simpl.
    rewrite foldl_updateNode_lookup, Hadd, lookup_app_l, Hn by done; simpl.
    rewrite gather_untouched; [by rewrite spread_empty_r |].
    intros u Hu (m & Hm & Hmu)%indexOfId_Some.
    rewrite lookup_app_l, Hn in Hm by done. injection Hm as <-.
    apply (Hus u Hu). congruence.
Qed.

Lemma readded_node_is_ignored_witness :
  workAgain ∈ or_empty (nodesToAdd readdOnly) ∧
  nodes INITIAL_DATA !! 1
    = Some (seedNode "work" "Work" "💼"
              "Professional life and goals." 150 50) ∧
  nodes (applyChanges readdOnly INITIAL_DATA) !! 1
    = Some (seedNode "work" "Work" "💼"
              "Professional life and goals." 150 50).
Proof.
  assert (workAgain ∈ or_empty (nodesToAdd readdOnly)) as Ha.
  { apply list_elem_of_here. }
  split; [exact Ha |]. split; [reflexivity |].
  refine (proj2 (readded_node_is_ignored INITIAL_DATA readdOnly workAgain 1 _
                   Ha eq_refl eq_refl) _).
  intros u Hu. inversion Hu.
Defined.

(** ** Referential integrity and connectivity *)

Section PushFresh.
Context {A : Type} (key : A → option string).

(** With distinct ids, none of them taken, the loop appends its list. *)
Lemma foldl_pushNew_fresh (l adds : list A) :
  NoDup (key <$> adds) →
  (∀ a, a ∈ adds → key a ∉ key <$> l) →
  foldl (pushNew key) l adds = l ++ adds.
Proof.
  revert l. induction adds as [|a adds IH]; intros l Hnd Hfresh; simpl.
  - by rewrite app_nil_r.
  - rewrite fmap_cons in Hnd. apply NoDup_cons in Hnd as [Ha Hnd].
    rewrite pushNew_fresh by apply Hfresh, list_elem_of_here.
    rewrite IH, <- app_assoc; [done | done |].
    intros b Hb. rewrite fmap_app. intros [Hin | Hin]%elem_of_app.
    + by apply (Hfresh b); [apply list_elem_of_further |].
    + apply list_elem_of_singleton in Hin. apply Ha. rewrite <- Hin.
      by apply list_elem_of_fmap_2.
Qed.
End PushFresh.

Lemma applyChanges_has_ids g p k :
  k ∈ nodeIds (nodes g) ++ nodeIds (or_empty (nodesToAdd p)) →
  k ∈ nodeIds (nodes (applyChanges p g)).
Proof.
  rewrite applyChanges_node_ids. intros [Hk | Hk]%elem_of_app.
  - by apply (foldl_pushNew_keys_old MindNode.id).
  - apply list_elem_of_fmap in Hk as (n & -> & Hn).
    by apply (foldl_pushNew_keys_new MindNode.id).
Qed.

(** Every id of the result is an id of the store, or the id of an entry of
    [nodesToAdd] the store did not have. *)
Lemma applyChanges_ids_inv g p k :
  k ∈ nodeIds (nodes (applyChanges p g)) →
  k ∈ nodeIds (nodes g) ∨
  ∃ b, b ∈ or_empty (nodesToAdd p) ∧ MindNode.id b = k.
Proof.
  rewrite applyChanges_node_ids.
  destruct (added_nodes g p) as (l' & -> & Hl').
  unfold nodeIds. rewrite fmap_app. intros [Hk | Hk]%elem_of_app; [by left |].
  right. apply list_elem_of_fmap in Hk as (b & -> & Hb).
  exists b. split; [by apply Hl' | done].
Qed.

Lemma applyChanges_edges g p :
  ∃ l', edges (applyChanges p g) = edges g ++ l' ∧
        ∀ e, e ∈ l' → e ∈ or_empty (edgesToAdd p).
Proof.
  destruct (foldl_pushNew_app MindEdge.id (edges g) (or_empty (edgesToAdd p)))
    as (l' & Hl' & Hin).
  exists l'. split; [exact Hl' | intros e He; by apply Hin].
Qed.

Lemma adjacent_sym es a b : adjacent es a b → adjacent es b a.
Proof.
  unfold adjacent. intros H. eapply Exists_impl; [exact H |].
  intros e [[? ?] | [? ?]]; [right | left]; done.
Qed.

Lemma reach_sym es a b : rtc (adjacent es) a b → rtc (adjacent es) b a.
Proof.
  induction 1 as [| a c b Hac _ IH]; [done |].
  eapply rtc_r; [exact IH | by apply adjacent_sym].
Qed.

Lemma reach_app es es' a b :
  rtc (adjacent es) a b → rtc (adjacent (es ++ es')) a b.
Proof.
  apply rtc_subrel. intros x y Hxy. unfold adjacent.
  apply Exists_app. by left.
Qed.

(** C1, as the specification words it, fails: from the seed graph, which
    has no dangling edge, applying [looseProposal] leaves the edge [e3]
    pointing at no node and the node [gym] without any edge. *)
Lemma dangling_edge_and_loose_node :
  noDangling INITIAL_DATA ∧
  ¬ noDangling (applyChanges looseProposal INITIAL_DATA) ∧
  ¬ newNodesLinked INITIAL_DATA (applyChanges looseProposal INITIAL_DATA).
Proof.
  unfold noDangling, newNodesLinked, linksInto. split_and!.
  - apply (bool_decide_unpack _). vm_compute. exact I.
  - intros H. apply (bool_decide_pack _) in H. vm_compute in H. done.
  - intros H. apply (bool_decide_pack _) in H. vm_compute in H. done.
Qed.

(** C1, amended. [handleApplyChanges] checks no source or target.  If the
    store has no dangling edge and every edge of [edgesToAdd] names ids of
    store nodes or of [nodesToAdd] entries, the result has no dangling
    edge.  If moreover the ids of [edgesToAdd] are distinct and not in use,
    and every [nodesToAdd] entry with a new id is an end of an
    [edgesToAdd] entry whose other end is a store node, then every newly
    added node has an edge into the store's nodes, and a connected graph
    stays connected. *)
Theorem applyChanges_integrity g p :
  noDangling g →
  Forall (λ e,
      MindEdge.source e
        ∈ nodeIds (nodes g) ++ nodeIds (or_empty (nodesToAdd p)) ∧
      MindEdge.target e
        ∈ nodeIds (nodes g) ++ nodeIds (or_empty (nodesToAdd p)))
    (or_empty (edgesToAdd p)) →
  noDangling (applyChanges p g) ∧
  (NoDup (edgeIds (or_empty (edgesToAdd p))) →
   Forall (λ e, MindEdge.id e ∉ edgeIds (edges g)) (or_empty (edgesToAdd p)) →
   Forall (λ n, MindNode.id n ∈ nodeIds (nodes g) ∨
                linksInto (nodeIds (nodes g)) (or_empty (edgesToAdd p))
                          (MindNode.id n))
          (or_empty (nodesToAdd p)) →
   newNodesLinked g (applyChanges p g) ∧
   (connected g → connected (applyChanges p g))).
Proof.
  intros Hg Hes. split.
  - unfold noDangling in *.
    destruct (applyChanges_edges g p) as (l' & -> & Hl').
    apply Forall_app. split.
    + eapply Forall_impl; [exact Hg |]. intros e [Hs Ht].
      split; apply applyChanges_has_ids, elem_of_app; by left.
    + apply Forall_forall. intros e He%Hl'.
      rewrite Forall_forall in Hes. destruct (Hes e He) as [Hs Ht].
      split; by apply applyChanges_has_ids.
  - intros Hnd Hfresh Hlinks.
    assert (edges (applyChanges p g) = edges g ++ or_empty (edgesToAdd p))
      as Hedges.
    { apply (foldl_pushNew_fresh MindEdge.id); [exact Hnd |].
      by apply Forall_forall. }
    assert (∀ k, k ∈ nodeIds (nodes (applyChanges p g)) →
                 k ∈ nodeIds (nodes g) ∨
                 linksInto (nodeIds (nodes g)) (edges (applyChanges p g)) k)
      as Hlinked.
    { intros k [Hk | (b & Hb & <-)]%applyChanges_ids_inv; [by left |].
      rewrite Forall_forall in Hlinks.
      destruct (Hlinks b Hb) as [Hold | Hlink]; [by left | right].
      rewrite Hedges. unfold linksInto. apply Exists_app. by right. }
    split.
    + apply Forall_forall. intros n Hn. apply Hlinked.
      by apply list_elem_of_fmap_2.
    + intros Hconn.
      assert (∀ k, k ∈ nodeIds (nodes (applyChanges p g)) →
                   ∃ o, o ∈ nodeIds (nodes g) ∧
                        rtc (adjacent (edges (applyChanges p g))) k o)
        as Hreach.
      { intros k [Hold | Hlink]%Hlinked; [by exists k |].
        apply Exists_exists in Hlink as (e & He & Hends).
        destruct Hends as [[Hs Ht] | [Ht Hs]].
        - exists (MindEdge.target e). split; [done |].
          apply rtc_once, Exists_exists. exists e. split; [done | by left].
        - exists (MindEdge.source e). split; [done |].
          apply rtc_once, Exists_exists. exists e. split; [done | by right]. }
      intros a b Ha Hb.
      destruct (Hreach a Ha) as (oa & Hoa & Ra).
      destruct (Hreach b Hb) as (ob & Hob & Rb).
      etrans; [exact Ra |]. etrans; [| apply reach_sym, Rb].
      rewrite Hedges. by apply reach_app, Hconn.
Qed.

Lemma seed_noDangling : noDangling INITIAL_DATA.
Proof. apply (bool_decide_unpack _). vm_compute. exact I. Defined.

Lemma applyChanges_integrity_witness :
  noDangling INITIAL_DATA ∧
  noDangling (applyChanges gymProposal INITIAL_DATA) ∧
  newNodesLinked INITIAL_DATA (applyChanges gymProposal INITIAL_DATA).
Proof.
  assert (Forall (λ e,
      MindEdge.source e
        ∈ nodeIds (nodes INITIAL_DATA)
            ++ nodeIds (or_empty (nodesToAdd gymProposal)) ∧
      MindEdge.target e
        ∈ nodeIds (nodes INITIAL_DATA)
            ++ nodeIds (or_empty (nodesToAdd gymProposal)))
    (or_empty (edgesToAdd gymProposal))) as Hes.
  { apply (bool_decide_unpack _). vm_compute. exact I. }
  destruct (applyChanges_integrity INITIAL_DATA gymProposal
              seed_noDangling Hes) as [Hnd Hrest].
  split; [exact seed_noDangling |]. split; [exact Hnd |].
  apply Hrest.
  - apply (bool_decide_unpack _). vm_compute. exact I.
  - apply (bool_decide_unpack _). vm_compute. exact I.
  - unfold linksInto. apply (bool_decide_unpack _). vm_compute. exact I.
Defined.

(** ** Malformed entries *)

(** C4, as the specification words it, fails: the malformed entries of
    [malformedProposal] are all inserted into the seed graph. *)
Lemma malformed_entries_are_inserted :
  (malformedNode gadget = true ∧
   gadget ∈ nodes (applyChanges malformedProposal INITIAL_DATA)) ∧
  (malformedNode urgentNote = true ∧
   urgentNote ∈ nodes (applyChanges malformedProposal INITIAL_DATA)) ∧
  (malformedNode nameless = true ∧
   nameless ∈ nodes (applyChanges malformedProposal INITIAL_DATA)) ∧
  (malformedEdge namelessEdge = true ∧
   namelessEdge ∈ edges (applyChanges malformedProposal INITIAL_DATA)).
Proof.
  split_and!; try reflexivity;
    apply (bool_decide_unpack _); vm_compute; exact I.
Qed.

(** Where an entry of the add loop lands: at the end of what the entries
    before it have built, when its id is new there; nowhere, when its id is
    taken. *)
Section PushAt.
Context {A : Type} (key : A → option string).

Lemma foldl_pushNew_keys_inv l adds k :
  k ∈ key <$> foldl (pushNew key) l adds → k ∈ (key <$> l) ++ (key <$> adds).
Proof.
  destruct (foldl_pushNew_app key l adds) as (l' & -> & Hl').
  rewrite fmap_app.
  intros [H | H]%elem_of_app; apply elem_of_app; [by left | right].
  apply list_elem_of_fmap in H as (b & -> & Hb).
  apply list_elem_of_fmap_2. by apply Hl'.
Qed.

Lemma foldl_pushNew_length l adds :
  (length l ≤ length (foldl (pushNew key) l adds))%nat.
Proof.
  destruct (foldl_pushNew_app key l adds) as (l' & -> & _).
  rewrite length_app. lia.
Qed.

Lemma foldl_pushNew_fresh_entry l pre a post :
  key a ∉ (key <$> l) ++ (key <$> pre) →
  ∃ rest,
    foldl (pushNew key) l (pre ++ a :: post)
    = foldl (pushNew key) l pre ++ a :: rest ∧
    key a ∉ key <$> foldl (pushNew key) l pre.
Proof.
  intros Hn.
  assert (key a ∉ key <$> foldl (pushNew key) l pre) as Hf.
  { intros H. by apply Hn, foldl_pushNew_keys_inv. }
  rewrite foldl_app. simpl. rewrite (pushNew_fresh key _ _ Hf).
  destruct (foldl_pushNew_app key (foldl (pushNew key) l pre ++ [a]) post)
    as (rest & -> & _).
  exists rest. split; [by rewrite <- app_assoc | done].
Qed.

Lemma foldl_pushNew_taken_entry l pre a post :
  key a ∈ (key <$> l) ++ (key <$> pre) →
  foldl (pushNew key) l (pre ++ a :: post) = foldl (pushNew key) l (pre ++ post).
Proof.
  intros Hin. rewrite !foldl_app. simpl. rewrite pushNew_taken; [done |].
  apply elem_of_app in Hin as [H | H].
  - by apply foldl_pushNew_keys_old.
  - apply list_elem_of_fmap in H as (b & -> & Hb).
    by apply foldl_pushNew_keys_new.
Qed.
End PushAt.

(** The updates gathered for one position, read as the loop applies them:
    one spread after the other, in the order of the list. *)
Lemma spread_gather ns i us n :
  spread n (gather ns i us)
  = foldl spread n
      (filter (λ u, indexOfId (MindNode.id u) ns = Some i) us).
Proof.
  revert n. induction us as [|u us IH]; intros n; simpl.
  - apply spread_empty_r.
  - rewrite <- spread_assoc, IH. case_decide as Hu.
    + by rewrite filter_cons_True.
    + by rewrite filter_cons_False, spread_empty_r.
Qed.

(** The updates that reach the first node carrying an id are those with
    that id. *)
Lemma indexOfId_first ns i n k :
  ns !! i = Some n →
  (∀ j m, j < i → ns !! j = Some m → MindNode.id m ≠ MindNode.id n) →
  indexOfId k ns = Some i ↔ k = MindNode.id n.
Proof.
  intros Hn Hfirst. split.
  - intros (n' & Hn' & <-)%indexOfId_Some. congruence.
  - intros ->. apply findIndex_Some. exists n.
    split_and!; [done | apply strict_eq_refl |].
    intros j m Hj Hm. apply strict_eq_false. by eapply Hfirst.
Qed.

(** C4, amended. Applying a proposal rejects no entry for being malformed:
    what happens to an entry of [nodesToAdd] or of [edgesToAdd] is decided
    by ids alone (a missing id compares as [undefined]), so a malformed
    entry is treated exactly as a well-formed one.  An entry whose id no
    node (edge) of the store and no earlier entry of the same list carries
    is inserted, behind the store and the entries inserted before it: an
    edge as it is given, a node as it is given with the [nodesToUpdate]
    entries of its id spread over it in their order (as it is given when
    there is none).  An entry whose id the store or an earlier entry
    carries is dropped: the proposal has the effect it has without the
    entry, so of several entries with one id the first decides. *)
Theorem applyChanges_validates_nothing g p :
  (∀ pre n post,
     or_empty (nodesToAdd p) = pre ++ n :: post →
     (MindNode.id n ∉ nodeIds (nodes g) ++ nodeIds pre →
      (length (nodes g) ≤ length (foldl addNode (nodes g) pre))%nat ∧
      nodes (applyChanges p g) !! length (foldl addNode (nodes g) pre)
      = Some (foldl spread n
                (filter (λ u, MindNode.id u = MindNode.id n)
                   (or_empty (nodesToUpdate p))))) ∧
     (MindNode.id n ∈ nodeIds (nodes g) ++ nodeIds pre →
      applyChanges p g
      = applyChanges
          (mkProposal (Some (pre ++ post)) (nodesToUpdate p) (edgesToAdd p)
             (explanation p)) g)) ∧
  (∀ pre e post,
     or_empty (edgesToAdd p) = pre ++ e :: post →
     (MindEdge.id e ∉ edgeIds (edges g) ++ edgeIds pre →
      (length (edges g) ≤ length (foldl addEdge (edges g) pre))%nat ∧
      edges (applyChanges p g) !! length (foldl addEdge (edges g) pre)
      = Some e) ∧
     (MindEdge.id e ∈ edgeIds (edges g) ++ edgeIds pre →
      applyChanges p g
      = applyChanges
          (mkProposal (nodesToAdd p) (nodesToUpdate p) (Some (pre ++ post))
             (explanation p)) g)).
Proof.
  split.
  - intros pre n post Hadds. split.
    + intros Hfresh.
      split; [apply (foldl_pushNew_length MindNode.id) |].
      destruct (foldl_pushNew_fresh_entry MindNode.id (nodes g) pre n post
                  Hfresh) as (rest & Hadd & Hk).
      unfold applyChanges; simpl. rewrite Hadds.
      rewrite foldl_updateNode_lookup. rewrite addNode_pushNew, Hadd.
      set (l1 := foldl (pushNew MindNode.id) (nodes g) pre) in *.
      assert ((l1 ++ n :: rest) !! length l1 = Some n) as Hn.
      { by apply list_lookup_middle. }
      rewrite Hn. simpl. f_equal. rewrite spread_gather. f_equal.
      apply list_filter_iff. intros u.
      apply (indexOfId_first _ _ _ _ Hn).
      intros j m Hj Hm Hid. apply Hk. rewrite <- Hid.
      rewrite lookup_app_l in Hm by done.
      apply list_elem_of_fmap_2. by eapply list_elem_of_lookup_2.
    + intros Htaken. unfold applyChanges; simpl. rewrite Hadds.
      by rewrite addNode_pushNew,
        (foldl_pushNew_taken_entry MindNode.id _ _ _ _ Htaken).
  - intros pre e post Hadds. split.
    + intros Hfresh.
      split; [apply (foldl_pushNew_length MindEdge.id) |].
      destruct (foldl_pushNew_fresh_entry MindEdge.id (edges g) pre e post
                  Hfresh) as (rest & Hadd & _).
      unfold applyChanges; simpl. rewrite Hadds.
      rewrite addEdge_pushNew, Hadd. by apply list_lookup_middle.
    + intros Htaken. unfold applyChanges; simpl. rewrite Hadds.
      by rewrite addEdge_pushNew,
        (foldl_pushNew_taken_entry MindEdge.id _ _ _ _ Htaken).
Qed.

(** On [displacingProposal] both halves of the node rule are at work: the
    malformed [gymGadget] comes first and is inserted, with the rename
    spread over it; the well-formed [gym] behind it is dropped. *)
Lemma applyChanges_validates_nothing_witness :
  (or_empty (nodesToAdd displacingProposal) = [] ++ gymGadget :: [gym] ∧
   (MindNode.id gymGadget ∉ nodeIds (nodes INITIAL_DATA) ++ nodeIds []) ∧
   nodes (applyChanges displacingProposal INITIAL_DATA) !! 3
   = Some (spread gymGadget gymRename)) ∧
  (or_empty (nodesToAdd displacingProposal) = [gymGadget] ++ gym :: [] ∧
   MindNode.id gym ∈ nodeIds (nodes INITIAL_DATA) ++ nodeIds [gymGadget] ∧
   applyChanges displacingProposal INITIAL_DATA
   = applyChanges
       (mkProposal (Some [gymGadget]) (Some [gymRename])
          (Some [seedEdge "e3" "health" "gym"]) "Gym machine and gym")
       INITIAL_DATA).
Proof.
  assert (MindNode.id gymGadget ∉ nodeIds (nodes INITIAL_DATA) ++ nodeIds [])
    as Hfresh.
  { apply (bool_decide_unpack _); vm_compute; exact I. }
  assert (MindNode.id gym ∈ nodeIds (nodes INITIAL_DATA) ++ nodeIds [gymGadget])
    as Htaken.
  { apply (bool_decide_unpack _); vm_compute; exact I. }
  split; (split; [reflexivity |]); (split; [assumption |]).
  - exact (proj2 (proj1 (proj1 (applyChanges_validates_nothing INITIAL_DATA
                                  displacingProposal)
                           [] gymGadget [gym] eq_refl) Hfresh)).
  - exact (proj2 (proj1 (applyChanges_validates_nothing INITIAL_DATA
                           displacingProposal)
                    [gymGadget] gym [] eq_refl) Htaken).
Defined.

(** In the graph [displacingProposal] gives, the node [gym] is the
    malformed entry, and the well-formed one is not stored. *)
Example malformed_entry_displaces :
  malformedNode gymGadget = true ∧ typedNode gym = true ∧
  nodes (applyChanges displacingProposal INITIAL_DATA)
  = nodes INITIAL_DATA ++ [spread gymGadget gymRename] ∧
  gym ∉ nodes (applyChanges displacingProposal INITIAL_DATA).
Proof.
  split_and!; try reflexivity.
  apply (bool_decide_unpack _); vm_compute; exact I.
Qed.

(** * Further properties of the handlers *)

(** ** [handleUpdateNode] *)

Lemma NoDup_fmap_eq {A B} (f : A → B) (l : list A) (a b : A) :
  NoDup (f <$> l) → a ∈ l → b ∈ l → f a = f b → a = b.
Proof.
  intros Hnd (i & Hi)%list_elem_of_lookup (j & Hj)%list_elem_of_lookup Hf.
  assert (i = j) as ->; [| congruence].
  apply (NoDup_lookup _ i j (f a) Hnd).
  - by rewrite list_lookup_fmap, Hi.
  - by rewrite list_lookup_fmap, Hj, Hf.
Qed.

Lemma nodeIntoMindMap_fixed n g :
  (∀ m, m ∈ nodes g → MindNode.id m = MindNode.id n → m = n) →
  nodeIntoMindMap n g = g.
Proof.
  intros H. destruct g as [ns es]. unfold nodeIntoMindMap; simpl in *.
  f_equal. apply fmap_fixed. intros m Hm.
  destruct (strict_eq _ _) eqn:Heq; [| done].
  symmetry. apply H; [done | by apply strict_eq_true].
Qed.

(** X1. A node edit never adds, removes, reorders or renames a node, never
    touches an edge or the task list; afterwards every node carrying the
    id of the edited node is the edited node itself, whole. *)
Theorem handleUpdateNode_frame updatedNode st :
  nodeIds (nodes (mindMap (handleUpdateNode updatedNode st)))
    = nodeIds (nodes (mindMap st)) ∧
  edges (mindMap (handleUpdateNode updatedNode st)) = edges (mindMap st) ∧
  tasks (handleUpdateNode updatedNode st) = tasks st ∧
  Forall (λ n, MindNode.id n = MindNode.id updatedNode → n = updatedNode)
    (nodes (mindMap (handleUpdateNode updatedNode st))).
Proof.
  split_and!; [apply nodeIntoMindMap_ids | done | done |].
  apply Forall_forall. intros n (m & -> & Hm)%list_elem_of_fmap Hid.
  destruct (strict_eq _ _) eqn:Heq; [done |].
  by apply strict_eq_false in Heq.
Qed.

(** X2. A node edit whose id no node of the graph carries leaves the graph
    as it was: the nodes and the edges stored afterwards are those stored
    before. *)
Theorem handleUpdateNode_unknown_id updatedNode st :
  MindNode.id updatedNode ∉ nodeIds (nodes (mindMap st)) →
  mindMap (handleUpdateNode updatedNode st) = mindMap st.
Proof.
  intros H. apply nodeIntoMindMap_fixed.
  intros m Hm Hid. destruct H. rewrite <- Hid. by apply list_elem_of_fmap_2.
Qed.

Lemma handleUpdateNode_unknown_id_witness :
  (MindNode.id ghost ∉ nodeIds (nodes (mindMap initialState))) ∧
  mindMap (handleUpdateNode ghost initialState) = mindMap initialState.
Proof.
  assert (MindNode.id ghost ∉ nodeIds (nodes (mindMap initialState))) as H.
  { intros H. apply (bool_decide_pack _) in H. vm_compute in H. done. }
  split; [exact H | exact (handleUpdateNode_unknown_id _ _ H)].
Defined.

(** X3. With distinct node ids, handing a node of the graph back to
    [handleUpdateNode] unchanged leaves the graph as it was: the nodes and
    the edges stored afterwards are those stored before. *)
Theorem handleUpdateNode_same_node updatedNode st :
  NoDup (nodeIds (nodes (mindMap st))) →
  updatedNode ∈ nodes (mindMap st) →
  mindMap (handleUpdateNode updatedNode st) = mindMap st.
Proof.
  intros Hnd Hin. apply nodeIntoMindMap_fixed.
  intros m Hm Hid. by apply (NoDup_fmap_eq MindNode.id (nodes (mindMap st))).
Qed.

Lemma handleUpdateNode_same_node_witness :
  NoDup (nodeIds (nodes (mindMap initialState))) ∧
  workSeed ∈ nodes (mindMap initialState) ∧
  mindMap (handleUpdateNode workSeed initialState) = mindMap initialState.
Proof.
  assert (workSeed ∈ nodes (mindMap initialState)) as Hin.
  { apply list_elem_of_further, list_elem_of_here. }
  split; [exact (proj1 seed_distinctIds) |]. split; [exact Hin |].
  exact (handleUpdateNode_same_node workSeed initialState
           (proj1 seed_distinctIds) Hin).
Defined.

(** X4. Of two node edits for one id the later one decides: the state is
    the one the later edit alone would give.  In particular an edit done
    twice is done once. *)
Theorem handleUpdateNode_overwrites n1 n2 st :
  MindNode.id n1 = MindNode.id n2 →
  handleUpdateNode n2 (handleUpdateNode n1 st) = handleUpdateNode n2 st.
Proof.
  intros Hid. unfold handleUpdateNode, setMindMap, nodeIntoMindMap; simpl.
  do 2 f_equal. rewrite <- list_fmap_compose. apply list_fmap_ext.
  intros i m _; simpl.
  destruct (strict_eq (MindNode.id m) (MindNode.id n1)) eqn:H1; [| done].
  apply strict_eq_true in H1.
  rewrite (proj2 (strict_eq_true _ _) Hid).
  by rewrite (proj2 (strict_eq_true _ _) (eq_trans H1 Hid)).
Qed.

Lemma handleUpdateNode_overwrites_witness :
  MindNode.id workDragged = MindNode.id workRenamed ∧
  handleUpdateNode workRenamed (handleUpdateNode workDragged initialState)
  = handleUpdateNode workRenamed initialState.
Proof.
  split; [reflexivity |].
  exact (handleUpdateNode_overwrites workDragged workRenamed initialState
           eq_refl).
Defined.

(** ** [updateTaskInMindMap] *)

(** X5. A task edit never adds, removes, reorders or renames a node and
    never touches an edge: position by position the node keeps its id,
    type, description, icon, details and coordinates, and a node whose id
    is not the task's [nodeId] keeps every field. *)
Theorem updateTaskInMindMap_frame updatedTask st :
  Forall2 (λ n n',
      MindNode.id n' = MindNode.id n ∧
      MindNode.type n' = MindNode.type n ∧
      MindNode.description n' = MindNode.description n ∧
      MindNode.icon n' = MindNode.icon n ∧
      MindNode.details n' = MindNode.details n ∧
      MindNode.x n' = MindNode.x n ∧ MindNode.y n' = MindNode.y n ∧
      (MindNode.id n ≠ Task.nodeId updatedTask → n' = n))
    (nodes (mindMap st))
    (nodes (mindMap (updateTaskInMindMap updatedTask st))) ∧
  edges (mindMap (updateTaskInMindMap updatedTask st)) = edges (mindMap st).
Proof.
  split; [| done].
  unfold updateTaskInMindMap, setMindMap, taskIntoMindMap; simpl.
  induction (nodes (mindMap st)) as [|n ns IH]; simpl; constructor; [| done].
  destruct (strict_eq _ _) eqn:Heq; simpl; split_and!; try done.
  intros Hne. by apply strict_eq_true in Heq.
Qed.

(** X6. Of two task edits naming one node the later one decides: the state
    is the one the later edit alone would give.  In particular a task edit
    done twice is done once. *)
Theorem updateTaskInMindMap_overwrites t1 t2 st :
  Task.nodeId t1 = Task.nodeId t2 →
  updateTaskInMindMap t2 (updateTaskInMindMap t1 st)
  = updateTaskInMindMap t2 st.
Proof.
  intros Hid. unfold updateTaskInMindMap, setMindMap, taskIntoMindMap; simpl.
  do 2 f_equal. rewrite <- list_fmap_compose. apply list_fmap_ext.
  intros i m _; simpl. rewrite <- Hid.
  destruct (strict_eq (MindNode.id m) (Task.nodeId t1)) eqn:H1; simpl;
    by rewrite H1.
Qed.

Lemma updateTaskInMindMap_overwrites_witness :
  Task.nodeId reportTask = Task.nodeId reportDone ∧
  updateTaskInMindMap reportDone (updateTaskInMindMap reportTask initialState)
  = updateTaskInMindMap reportDone initialState.
Proof.
  split; [reflexivity |].
  exact (updateTaskInMindMap_overwrites reportTask reportDone initialState
           eq_refl).
Defined.

(** ** [handleApplyChanges] *)

(** X7. A proposal whose three lists are missing or empty leaves the graph
    as it was: the nodes and the edges stored afterwards are those stored
    before. *)
Theorem handleApplyChanges_nothing_to_do proposal st :
  or_empty (nodesToAdd proposal) = [] →
  or_empty (nodesToUpdate proposal) = [] →
  or_empty (edgesToAdd proposal) = [] →
  mindMap (handleApplyChanges proposal st) = mindMap st.
Proof.
  intros Ha Hu He. unfold handleApplyChanges, setMindMap; simpl.
  unfold applyChanges. rewrite Ha, Hu, He; simpl. by destruct (mindMap st).
Qed.

Lemma handleApplyChanges_nothing_to_do_witness :
  mindMap
    (handleApplyChanges
       {| nodesToAdd := None; nodesToUpdate := Some []; edgesToAdd := None;
          explanation := "Nothing to change" |} syncedState)
  = mindMap syncedState.
Proof.
  exact (handleApplyChanges_nothing_to_do
           {| nodesToAdd := None; nodesToUpdate := Some []; edgesToAdd := None;
              explanation := "Nothing to change" |} syncedState
           eq_refl eq_refl eq_refl).
Defined.

Section PushExact.
Context {A : Type} (key : A → option string).

(** What the loop appends: a sublist of [adds], with distinct ids, holding
    exactly the ids of [adds] that [l] did not have. *)
Lemma foldl_pushNew_exact (l adds : list A) :
  ∃ l', foldl (pushNew key) l adds = l ++ l' ∧
        l' `sublist_of` adds ∧
        NoDup (key <$> l') ∧
        ∀ k, k ∈ key <$> l' ↔ k ∈ key <$> adds ∧ k ∉ key <$> l.
Proof.
  revert l. induction adds as [|a adds IH]; intros l; simpl.
  - exists []. rewrite app_nil_r. split_and!; [done | done | constructor |].
    intros k. split; [intros Hk; inversion Hk | intros [Hk _]; inversion Hk].
  - destruct (pushNew_cases key l a) as [[Hin ->] | [Hn ->]].
    + destruct (IH l) as (l' & -> & Hsub & Hnd & Hiff).
      exists l'. split_and!; [done | by apply sublist_cons | done |].
      intros k. rewrite Hiff, ?fmap_cons, elem_of_cons. split.
      * intros [? ?]. split; [by right | done].
      * intros [[-> | ?] ?]; [done | by split].
    + destruct (IH (l ++ [a])) as (l' & -> & Hsub & Hnd & Hiff).
      exists (a :: l'). rewrite <- app_assoc.
      assert (∀ k, k ∈ key <$> l ++ [a] ↔ k ∈ key <$> l ∨ k = key a) as Hsnoc.
      { intros k. rewrite fmap_app, elem_of_app; simpl.
        by rewrite list_elem_of_singleton. }
      split_and!; [done | by apply sublist_skip | |].
      * rewrite ?fmap_cons. apply NoDup_cons. split; [| done].
        intros [_ Hk]%Hiff. apply Hk, Hsnoc. by right.
      * intros k. rewrite ?fmap_cons, !elem_of_cons, Hiff, Hsnoc. split.
        -- intros [-> | [? Hk]]; [split; [by left | done] |].
           split; [by right |]. intros ?. apply Hk. by left.
        -- intros [[-> | ?] Hk]; [by left |].
           destruct (decide (k = key a)) as [-> | Hne]; [by left | right].
           split; [done |]. by intros [? | ?].
Qed.
End PushExact.

(** X8. Applying a proposal only appends.  The node ids of the store stay
    where they are, followed by the ids of [nodesToAdd] that the store did
    not have, each once.  The edges of the store stay as they are, followed
    by entries of [edgesToAdd], in their order, carrying each id the store
    did not have once. *)
Theorem applyChanges_appends p g :
  ∃ ns' es',
    nodeIds (nodes (applyChanges p g)) = nodeIds (nodes g) ++ ns' ∧
    NoDup ns' ∧
    (∀ k, k ∈ ns' ↔
          k ∈ nodeIds (or_empty (nodesToAdd p)) ∧ k ∉ nodeIds (nodes g)) ∧
    edges (applyChanges p g) = edges g ++ es' ∧
    es' `sublist_of` or_empty (edgesToAdd p) ∧
    NoDup (edgeIds es') ∧
    (∀ k, k ∈ edgeIds es' ↔
          k ∈ edgeIds (or_empty (edgesToAdd p)) ∧ k ∉ edgeIds (edges g)).
Proof.
  destruct (foldl_pushNew_exact MindNode.id (nodes g)
              (or_empty (nodesToAdd p))) as (ns' & Hns & _ & Hnd & Hiff).
  destruct (foldl_pushNew_exact MindEdge.id (edges g)
              (or_empty (edgesToAdd p))) as (es' & Hes & Hsub & Hed & Heiff).
  exists (nodeIds ns'), es'. split_and!; try done.
  rewrite applyChanges_node_ids. unfold nodeIds.
  change (foldl addNode) with (foldl (pushNew MindNode.id)).
  by rewrite Hns, fmap_app.
Qed.

(** X9. Applying a proposal changes no node of the store that
    [nodesToUpdate] does not name: the node stays at its position with
    every field. *)
Theorem applyChanges_untouched_node p g i n :
  nodes g !! i = Some n →
  (∀ u, u ∈ or_empty (nodesToUpdate p) → MindNode.id u ≠ MindNode.id n) →
  nodes (applyChanges p g) !! i = Some n.
Proof.
  intros Hn Hus. destruct (added_nodes g p) as (l' & Hadd & _).
  pose proof (lookup_lt_Some _ _ _ Hn) as Hlt.
  unfold applyChanges; simpl.
  rewrite foldl_updateNode_lookup, Hadd, lookup_app_l, Hn by done; simpl.
  rewrite gather_untouched; [by rewrite spread_empty_r |].
  intros u Hu (m & Hm & Hmu)%indexOfId_Some.
  rewrite lookup_app_l, Hn in Hm by done. injection Hm as <-.
  by apply (Hus u Hu).
Qed.

Lemma applyChanges_untouched_node_witness :
  nodes INITIAL_DATA !! 2
    = Some (seedNode "health" "Health" "💪"
              "Physical and mental well-being." (-150) 50) ∧
  nodes (applyChanges readdAndRename INITIAL_DATA) !! 2
    = Some (seedNode "health" "Health" "💪"
              "Physical and mental well-being." (-150) 50).
Proof.
  split; [reflexivity |].
  refine (applyChanges_untouched_node readdAndRename INITIAL_DATA 2 _
            eq_refl _).
  intros u [-> | Hu]%elem_of_cons; [discriminate | inversion Hu].
Defined.

(** X10. Two updates for one id, one after the other, act as the single
    update that spreads the second over the first: where both carry a
    field the later value is kept. *)
Theorem updateNode_updateNode ns u1 u2 :
  MindNode.id u1 = MindNode.id u2 →
  updateNode (updateNode ns u1) u2 = updateNode ns (spread u1 u2).
Proof.
  intros Hid.
  assert (MindNode.id (spread u1 u2) = MindNode.id u1) as Hs.
  { by apply spread_id. }
  apply list_eq. intros i. rewrite !updateNode_lookup.
  rewrite (indexOfId_ids _ _ ns) by apply updateNode_ids.
  rewrite Hs, <- Hid.
  destruct (ns !! i) as [n|]; simpl; [| done].
  case_decide; [by rewrite spread_assoc | done].
Qed.

Lemma updateNode_updateNode_witness :
  MindNode.id workLabel = MindNode.id workDescription ∧
  updateNode (updateNode (nodes INITIAL_DATA) workLabel) workDescription
  = updateNode (nodes INITIAL_DATA) (spread workLabel workDescription).
Proof.
  split; [reflexivity |].
  exact (updateNode_updateNode (nodes INITIAL_DATA) workLabel workDescription
           eq_refl).
Defined.

(** ** Sessions of [App] *)

Lemma run_snoc st evs ev : run st (evs ++ [ev]) = handle (run st evs) ev.
Proof. unfold run. by rewrite foldl_app. Qed.

(** X11. Whatever else happens in a session, the task list at its end is
    the list of the last extraction that arrived, and the list from before
    the session when none arrived: a failed sync, an edit or a proposal
    never writes it, and of two overlapping syncs the later answer wins. *)
Theorem tasks_last_sync_wins st evs :
  tasks (run st evs) = default (tasks st) (lastSync evs).
Proof.
  induction evs as [|ev evs IH] using rev_ind; [done |].
  rewrite run_snoc. unfold lastSync. rewrite foldl_app; simpl.
  fold (lastSync evs). destruct ev; simpl; try exact IH. done.
Qed.

Lemma handle_mindMap st st' ev :
  mindMap st = mindMap st' → mindMap (handle st ev) = mindMap (handle st' ev).
Proof. intros H. destruct ev; simpl; by rewrite ?H. Qed.

Lemma handle_keeps_mindMap st ev :
  writesMindMap ev = false → mindMap (handle st ev) = mindMap st.
Proof. by destruct ev. Qed.

(** X12. The mind map at the end of a session is decided by the proposals,
    task edits and node edits of the session alone, in their order: syncs
    and the showing and hiding of panels can be left out without changing
    it. *)
Theorem mindMap_ignores_other_events st evs :
  mindMap (run st evs) = mindMap (run st (filter (λ ev, writesMindMap ev) evs)).
Proof.
  induction evs as [|ev evs IH] using rev_ind; [done |].
  rewrite filter_app, run_snoc.
  destruct (writesMindMap ev) eqn:Hw.
  - rewrite filter_cons_True by (simpl; by rewrite Hw).
    rewrite filter_nil, run_snoc. by apply handle_mindMap.
  - rewrite filter_cons_False by (rewrite Hw; auto).
    rewrite filter_nil, app_nil_r, handle_keeps_mindMap by done. exact IH.
Qed.

(** ** The list shown by [TaskWidget] *)

Lemma insertSorted_perm {A} (cmp : A → A → option Z) a l :
  insertSorted cmp a l ≡ₚ a :: l.
Proof.
  induction l as [|b l IH]; simpl; [done |].
  destruct (_ <=? _)%Z; [done |]. by rewrite IH, Permutation_swap.
Qed.

Lemma sort_perm {A} (cmp : A → A → option Z) l : sort cmp l ≡ₚ l.
Proof.
  induction l as [|a l IH]; simpl; [done |].
  by rewrite insertSorted_perm, IH.
Qed.

(** X13. When the tasks have the type [Task], the list the widget shows
    holds the tasks it was given, each as often as it was given: sorting
    loses and invents nothing. *)
Theorem sortedTasks_permutation tasks :
  Forall (λ t, typedTask t = true) tasks → sortedTasks tasks ≡ₚ tasks.
Proof. intros _. apply sort_perm. Qed.

Lemma sortedTasks_permutation_witness :
  Forall (λ t, typedTask t = true)
    [reportDone; orphanTask; reportTask; urgentTask; reportTask] ∧
  sortedTasks [reportDone; orphanTask; reportTask; urgentTask; reportTask]
  ≡ₚ [reportDone; orphanTask; reportTask; urgentTask; reportTask].
Proof.
  assert (Forall (λ t, typedTask t = true)
            [reportDone; orphanTask; reportTask; urgentTask; reportTask]) as H.
  { repeat constructor. }
  split; [exact H | exact (sortedTasks_permutation _ H)].
Defined.

(** Sorting by a comparator that agrees with a rank on the elements that
    satisfy [P]. *)
Section SortByRank.
Context {A : Type} (cmp : A → A → option Z) (rank : A → Z) (P : A → Prop).
Hypothesis cmp_rank :
  ∀ a b, P a → P b →
         (default 0 (cmp a b) <=? 0)%Z = (rank a <=? rank b)%Z.

Lemma insertSorted_sorted a l :
  P a → Forall P l →
  StronglySorted (λ x y, rank x ≤ rank y)%Z l →
  StronglySorted (λ x y, rank x ≤ rank y)%Z (insertSorted cmp a l).
Proof.
  intros Ha Hl Hs. induction Hs as [|b l Hs IH Hb]; simpl.
  - by repeat constructor.
  - apply Forall_cons in Hl as [Pb Hl].
    rewrite cmp_rank by done. destruct (Z.leb_spec (rank a) (rank b)).
    + apply StronglySorted_cons. split; [| by apply StronglySorted_cons].
      constructor; [done |]. eapply Forall_impl; [exact Hb |].
      intros c Hc; simpl in *. lia.
    + apply StronglySorted_cons. split; [| by apply IH].
      rewrite insertSorted_perm. constructor; [lia | done].
Qed.

Lemma sort_sorted l :
  Forall P l → StronglySorted (λ x y, rank x ≤ rank y)%Z (sort cmp l).
Proof.
  induction 1 as [|a l Ha Hl IH]; simpl; [constructor |].
  apply insertSorted_sorted; [done | by rewrite sort_perm | done].
Qed.

Lemma sort_of_sorted l :
  Forall P l → StronglySorted (λ x y, rank x ≤ rank y)%Z l → sort cmp l = l.
Proof.
  intros Hl Hs. induction Hs as [|a l Hs IH Ha]; simpl; [done |].
  apply Forall_cons in Hl as [Pa Hl]. rewrite IH by done.
  destruct l as [|b l]; simpl; [done |].
  apply Forall_cons in Hl as [Pb _]. apply Forall_cons in Ha as [Hab _].
  rewrite cmp_rank by done.
  by destruct (Z.leb_spec (rank a) (rank b)); [| lia].
Qed.

Lemma filter_insertSorted r a l :
  P a → Forall P l →
  filter (λ x, rank x = r) (insertSorted cmp a l)
  = filter (λ x, rank x = r) (a :: l).
Proof.
  intros Ha Hl. induction Hl as [|b l Pb Hl IH]; simpl; [done |].
  rewrite cmp_rank by done. destruct (Z.leb_spec (rank a) (rank b)); [done |].
  rewrite filter_cons, IH, !filter_cons.
  repeat case_decide; try done; lia.
Qed.

Lemma filter_sort r l :
  Forall P l →
  filter (λ x, rank x = r) (sort cmp l) = filter (λ x, rank x = r) l.
Proof.
  induction 1 as [|a l Ha Hl IH]; simpl; [done |].
  rewrite filter_insertSorted by (by rewrite ?sort_perm).
  by rewrite !filter_cons, IH.
Qed.
End SortByRank.

Lemma among_Level u :
  among Level u = true → u = Some "high" ∨ u = Some "medium" ∨ u = Some "low".
Proof.
  destruct u as [s|]; simpl; [| done]. intros H%bool_decide_eq_true.
  repeat (apply elem_of_cons in H as [-> | H]); [tauto.. |]. inversion H.
Qed.

(** On tasks of type [Task] the comparator orders by [taskRank]. *)
Lemma compareTasks_rank a b :
  typedTask a = true → typedTask b = true →
  (default 0 (compareTasks a b) <=? 0)%Z = (taskRank a <=? taskRank b)%Z.
Proof.
  unfold typedTask, compareTasks, taskRank.
  intros Ha Hb. repeat (apply andb_prop in Ha as [Ha ?]).
  repeat (apply andb_prop in Hb as [Hb ?]).
  repeat match goal with
         | H : among Level _ = true |- _ =>
             apply among_Level in H as [-> | [-> | ->]]
         | H : bool_decide (is_Some (Task.completed _)) = true |- _ =>
             apply bool_decide_eq_true in H as [[] ->]
         end; reflexivity.
Qed.

(** X14. When the tasks have the type [Task], the list the widget shows is
    in order: every open task stands before every completed one, and among
    the open as among the completed the high urgencies stand before the
    medium and the medium before the low.  A list of such tasks that is
    already in that order is shown as it is given, no two tasks of it
    exchanged. *)
Theorem sortedTasks_ordered tasks :
  Forall (λ t, typedTask t = true) tasks →
  StronglySorted (λ a b, taskRank a ≤ taskRank b)%Z (sortedTasks tasks) ∧
  (StronglySorted (λ a b, taskRank a ≤ taskRank b)%Z tasks →
   sortedTasks tasks = tasks).
Proof.
  intros H. split.
  - by apply (sort_sorted compareTasks taskRank _ compareTasks_rank).
  - by apply (sort_of_sorted compareTasks taskRank _ compareTasks_rank).
Qed.

Lemma sortedTasks_ordered_witness :
  Forall (λ t, typedTask t = true)
    [urgentTask; reportTask; orphanTask; reportDone] ∧
  StronglySorted (λ a b, taskRank a ≤ taskRank b)%Z
    [urgentTask; reportTask; orphanTask; reportDone] ∧
  StronglySorted (λ a b, taskRank a ≤ taskRank b)%Z
    (sortedTasks [urgentTask; reportTask; orphanTask; reportDone]) ∧
  sortedTasks [urgentTask; reportTask; orphanTask; reportDone]
  = [urgentTask; reportTask; orphanTask; reportDone].
Proof.
  assert (Forall (λ t, typedTask t = true)
            [urgentTask; reportTask; orphanTask; reportDone]) as H.
  { repeat constructor. }
  assert (StronglySorted (λ a b, taskRank a ≤ taskRank b)%Z
            [urgentTask; reportTask; orphanTask; reportDone]) as Hs.
  { repeat constructor; by vm_compute. }
  split; [exact H |]. split; [exact Hs |].
  split; [exact (proj1 (sortedTasks_ordered _ H)) |
          exact (proj2 (sortedTasks_ordered _ H) Hs)].
Defined.

Example sortedTasks_scenario :
  sortedTasks [reportDone; orphanTask; reportTask; urgentTask]
  = [urgentTask; reportTask; orphanTask; reportDone].
Proof. reflexivity. Qed.

(** X15. When the tasks have the type [Task], sorting is stable: the tasks
    of one completion state and one urgency are shown in the order in which
    the extraction returned them. *)
Theorem sortedTasks_stable tasks r :
  Forall (λ t, typedTask t = true) tasks →
  filter (λ t, taskRank t = r) (sortedTasks tasks)
  = filter (λ t, taskRank t = r) tasks.
Proof.
  intros H. by apply (filter_sort compareTasks taskRank _ compareTasks_rank).
Qed.

Lemma sortedTasks_stable_witness :
  Forall (λ t, typedTask t = true)
    [reportDone; reportTask; orphanTask; urgentTask; reportTask] ∧
  filter (λ t, taskRank t = 1%Z)
    (sortedTasks [reportDone; reportTask; orphanTask; urgentTask; reportTask])
  = filter (λ t, taskRank t = 1%Z)
      [reportDone; reportTask; orphanTask; urgentTask; reportTask].
Proof.
  assert (Forall (λ t, typedTask t = true)
            [reportDone; reportTask; orphanTask; urgentTask; reportTask]) as H.
  { repeat constructor. }
  split; [exact H | exact (sortedTasks_stable _ 1%Z H)].
Defined.

(** ** The edit form of [TaskWidget] *)

Lemma editTaskField_keeps w edits :
  isExpanded (foldl editTaskField w edits) = isExpanded w ∧
  editingTaskId (foldl editTaskField w edits) = editingTaskId w ∧
  Task.id (editValues (foldl editTaskField w edits)) = Task.id (editValues w) ∧
  Task.nodeId (editValues (foldl editTaskField w edits))
    = Task.nodeId (editValues w) ∧
  Task.completed (editValues (foldl editTaskField w edits))
    = Task.completed (editValues w) ∧
  Task.reminderDate (editValues (foldl editTaskField w edits))
    = Task.reminderDate (editValues w).
Proof.
  revert w. induction edits as [|e edits IH]; intros w; simpl; [done |].
  destruct (IH (editTaskField w e)) as (-> & -> & -> & -> & -> & ->).
  by destruct e.
Qed.

(** X16. Saving the edit form of a task whose id is a string that is not
    empty raises exactly one task edit in [App] and puts the form away.
    Whatever was typed into the form, the task raised carries the id, the
    node id, the completion state and the reminder date of the task that
    was opened; when nothing was typed it is that task. *)
Theorem saveEditing_after_edits task w edits s :
  Task.id task = Some s → s ≠ EmptyString →
  ∃ t, saveEditing (foldl editTaskField (startEditing task w) edits)
         = ({| isExpanded := isExpanded w; editingTaskId := NotEditing;
               editValues := emptyTask |}, [UpdateTask t]) ∧
       Task.id t = Task.id task ∧
       Task.nodeId t = Task.nodeId task ∧
       Task.completed t = Task.completed task ∧
       Task.reminderDate t = Task.reminderDate task ∧
       (edits = [] → t = task).
Proof.
  intros Hid Hs.
  destruct (editTaskField_keeps (startEditing task w) edits)
    as (Hexp & Hed & H1 & H2 & H3 & H4).
  exists (editValues (foldl editTaskField (startEditing task w) edits)).
  split_and!; try done; [| by intros ->].
  unfold saveEditing, cancelEditing. rewrite Hed, Hexp; simpl. rewrite Hid.
  by rewrite (proj2 (String.eqb_neq _ _) Hs).
Qed.

Lemma saveEditing_after_edits_witness :
  Task.id reportTask = Some "t1" ∧ "t1" ≠ EmptyString ∧
  ∃ t, saveEditing
         (foldl editTaskField (startEditing reportTask initialTaskWidget)
            [EditTitle "Send the report to Ana"; EditUrgency "high"])
         = ({| isExpanded := isExpanded initialTaskWidget;
               editingTaskId := NotEditing; editValues := emptyTask |},
            [UpdateTask t]) ∧
       Task.id t = Task.id reportTask ∧
       Task.nodeId t = Task.nodeId reportTask ∧
       Task.completed t = Task.completed reportTask ∧
       Task.reminderDate t = Task.reminderDate reportTask ∧
       ([EditTitle "Send the report to Ana"; EditUrgency "high"] = [] →
        t = reportTask).
Proof.
  assert ("t1" ≠ EmptyString) as Hs by discriminate.
  split; [reflexivity |]. split; [exact Hs |].
  exact (saveEditing_after_edits reportTask initialTaskWidget _ "t1"
           eq_refl Hs).
Defined.

(** X17. The edit form of a task without id, or with the empty string as
    id, cannot be saved: whatever was typed, [saveEditing] raises nothing in
    [App] and leaves the form as it is. *)
Theorem saveEditing_needs_id task w edits :
  Task.id task = None ∨ Task.id task = Some EmptyString →
  saveEditing (foldl editTaskField (startEditing task w) edits)
  = (foldl editTaskField (startEditing task w) edits, []).
Proof.
  intros Hid.
  destruct (editTaskField_keeps (startEditing task w) edits)
    as (_ & Hed & _).
  unfold saveEditing. rewrite Hed; simpl. by destruct Hid as [-> | ->].
Qed.

Lemma saveEditing_needs_id_witness :
  (Task.id idlessTask = None ∨ Task.id idlessTask = Some EmptyString) ∧
  saveEditing
    (foldl editTaskField (startEditing idlessTask initialTaskWidget)
       [EditTitle "Stretch every morning"])
  = (foldl editTaskField (startEditing idlessTask initialTaskWidget)
       [EditTitle "Stretch every morning"], []).
Proof.
  assert (Task.id idlessTask = None ∨ Task.id idlessTask = Some EmptyString)
    as H by (left; reflexivity).
  split; [exact H | exact (saveEditing_needs_id idlessTask _ _ H)].
Defined.

(** X18. A click on the checkbox of a listed task writes the negation of
    the listed completion into every node the task names, and does not
    change the list the widget shows; so a second click on the same
    checkbox writes the same value again and leaves the state as the first
    click left it. *)
Theorem checkbox_twice task st :
  Forall (λ n, MindNode.id n = Task.nodeId task →
               MindNode.isCompleted n
               = Some (negb (truthy (Task.completed task))))
    (nodes (mindMap (run st (toggleCompleted task)))) ∧
  sortedTasks (tasks (run st (toggleCompleted task))) = sortedTasks (tasks st) ∧
  run st (toggleCompleted task ++ toggleCompleted task)
  = run st (toggleCompleted task).
Proof.
  split_and!.
  - apply Forall_forall. intros n (m & -> & Hm)%list_elem_of_fmap; simpl.
    destruct (strict_eq _ _) eqn:Heq; [done |].
    intros Hid. by apply strict_eq_false in Heq.
  - done.
  - unfold run, toggleCompleted; simpl.
    unfold updateTaskInMindMap, setMindMap, taskIntoMindMap; simpl.
    do 2 f_equal. rewrite <- list_fmap_compose. apply list_fmap_ext.
    intros i m _; simpl.
    destruct (strict_eq (MindNode.id m) (Task.nodeId task)) eqn:H1; simpl;
      by rewrite H1.
Qed.

(** ** The edit form of [MindMap] *)

Lemma editNodeField_fold m edits :
  foldl editNodeField m edits
  = {| selectedNode := selectedNode m;
       isEditing := isEditing m;
       editNode := (λ n, foldl withField n edits) <$> editNode m |}.
Proof.
  revert m. induction edits as [|e edits IH]; intros m; simpl.
  - destruct m as [s b [n|]]; done.
  - rewrite IH; simpl. by destruct (editNode m).
Qed.

Lemma withField_keeps n edits :
  MindNode.id (foldl withField n edits) = MindNode.id n ∧
  MindNode.details (foldl withField n edits) = MindNode.details n ∧
  MindNode.date (foldl withField n edits) = MindNode.date n ∧
  MindNode.reminderDate (foldl withField n edits) = MindNode.reminderDate n ∧
  MindNode.isCompleted (foldl withField n edits) = MindNode.isCompleted n ∧
  MindNode.priority (foldl withField n edits) = MindNode.priority n ∧
  MindNode.x (foldl withField n edits) = MindNode.x n ∧
  MindNode.y (foldl withField n edits) = MindNode.y n.
Proof.
  revert n. induction edits as [|e edits IH]; intros n; simpl; [done |].
  destruct (IH (withField n e)) as (-> & -> & -> & -> & -> & -> & -> & ->).
  by destruct e.
Qed.

(** What a click on a drawn node selects. *)
Lemma nodeClick_known data d m n :
  NoDup (nodeIds (nodes data)) → n ∈ nodes data →
  MindNode.id d = MindNode.id n →
  nodeClick data d m
  = {| selectedNode := Some n; isEditing := isEditing m;
       editNode := editNode m |}.
Proof.
  intros Hnd Hn Hid. unfold nodeClick.
  destruct (find _ (nodes data)) as [n'|] eqn:Hf.
  - apply find_Some in Hf as [Hn' Heq]. apply strict_eq_true in Heq.
    assert (n' = n) as ->; [| done].
    apply (NoDup_fmap_eq MindNode.id (nodes data)); [done.. | congruence].
  - rewrite find_None in Hf. specialize (Hf n Hn).
    apply strict_eq_false in Hf. congruence.
Qed.

(** X19. Saving the edit form raises exactly one node edit in [App].
    Whatever was typed into the form, the node raised carries the id, the
    details, the dates, the completion state, the priority and the
    coordinates of the node that was selected when the form was opened, and
    it becomes the selected node. *)
Theorem saveEdit_after_edits m n edits :
  selectedNode m = Some n →
  saveEdit (foldl editNodeField (handleEditClick m) edits)
  = ({| selectedNode := Some (foldl withField n edits);
        isEditing := false;
        editNode := Some (foldl withField n edits) |},
     [UpdateNode (foldl withField n edits)]) ∧
  MindNode.id (foldl withField n edits) = MindNode.id n ∧
  MindNode.details (foldl withField n edits) = MindNode.details n ∧
  MindNode.date (foldl withField n edits) = MindNode.date n ∧
  MindNode.reminderDate (foldl withField n edits) = MindNode.reminderDate n ∧
  MindNode.isCompleted (foldl withField n edits) = MindNode.isCompleted n ∧
  MindNode.priority (foldl withField n edits) = MindNode.priority n ∧
  MindNode.x (foldl withField n edits) = MindNode.x n ∧
  MindNode.y (foldl withField n edits) = MindNode.y n.
Proof.
  intros Hsel. split; [| apply withField_keeps].
  rewrite editNodeField_fold. unfold saveEdit, handleEditClick; simpl.
  by rewrite Hsel.
Qed.

Lemma saveEdit_after_edits_witness :
  selectedNode (nodeClick INITIAL_DATA workDragged initialMindMap)
    = Some workSeed ∧
  (saveEdit
     (foldl editNodeField
        (handleEditClick (nodeClick INITIAL_DATA workDragged initialMindMap))
        [EditLabel "Career"])).2
  = [UpdateNode workRenamed].
Proof.
  split; [reflexivity |].
  exact (f_equal snd
           (proj1 (saveEdit_after_edits
                     (nodeClick INITIAL_DATA workDragged initialMindMap)
                     workSeed [EditLabel "Career"] eq_refl))).
Defined.

(** X20. With distinct node ids, clicking a drawn node of the graph,
    opening the edit form and saving it without typing leaves the graph
    as it was, wherever the simulation has moved the drawn copy: the nodes
    and the edges stored afterwards are those stored before. *)
Theorem edit_without_typing st d m :
  NoDup (nodeIds (nodes (mindMap st))) →
  MindNode.id d ∈ nodeIds (nodes (mindMap st)) →
  mindMap (run st (saveEdit (handleEditClick (nodeClick (mindMap st) d m))).2)
  = mindMap st.
Proof.
  intros Hnd (n & Hid & Hn)%list_elem_of_fmap.
  rewrite (nodeClick_known _ _ _ n) by done.
  unfold saveEdit, handleEditClick, run; simpl.
  apply nodeIntoMindMap_fixed. intros n' Hn' Heq.
  by apply (NoDup_fmap_eq MindNode.id (nodes (mindMap st))).
Qed.

Lemma edit_without_typing_witness :
  NoDup (nodeIds (nodes (mindMap initialState))) ∧
  MindNode.id workDragged ∈ nodeIds (nodes (mindMap initialState)) ∧
  mindMap
    (run initialState
       (saveEdit (handleEditClick
                    (nodeClick (mindMap initialState) workDragged
                       initialMindMap))).2)
  = mindMap initialState.
Proof.
  assert (MindNode.id workDragged ∈ nodeIds (nodes (mindMap initialState)))
    as Hin.
  { apply list_elem_of_further, list_elem_of_here. }
  split; [exact (proj1 seed_distinctIds) |]. split; [exact Hin |].
  exact (edit_without_typing initialState workDragged initialMindMap
           (proj1 seed_distinctIds) Hin).
Defined.

(** X21. With distinct node ids, clicking the drawn copy of the node at a
    position of the graph, opening the form, typing and saving leaves at
    that position the stored node with the typed fields written over it
    (never the moved copy: the coordinates are the stored ones) and leaves
    every other position, the edges and the task list as they were. *)
Theorem edit_writes_stored_node st d m i n edits :
  NoDup (nodeIds (nodes (mindMap st))) →
  nodes (mindMap st) !! i = Some n →
  MindNode.id d = MindNode.id n →
  nodes (mindMap
           (run st (saveEdit (foldl editNodeField
                                (handleEditClick
                                   (nodeClick (mindMap st) d m)) edits)).2))
    !! i = Some (foldl withField n edits) ∧
  (∀ j, j ≠ i →
     nodes (mindMap
              (run st (saveEdit (foldl editNodeField
                                   (handleEditClick
                                      (nodeClick (mindMap st) d m)) edits)).2))
       !! j = nodes (mindMap st) !! j) ∧
  edges (mindMap
           (run st (saveEdit (foldl editNodeField
                                (handleEditClick
                                   (nodeClick (mindMap st) d m)) edits)).2))
    = edges (mindMap st) ∧
  tasks (run st (saveEdit (foldl editNodeField
                             (handleEditClick
                                (nodeClick (mindMap st) d m)) edits)).2)
    = tasks st.
Proof.
  intros Hnd Hn Hid.
  rewrite (nodeClick_known _ _ _ n) by
    (done || by eapply list_elem_of_lookup_2).
  rewrite editNodeField_fold. unfold saveEdit, handleEditClick, run; simpl.
  destruct (withField_keeps n edits) as (Hkeep & _).
  split_and!; [| | done | done].
  - rewrite list_lookup_fmap, Hn; simpl.
    by rewrite (proj2 (strict_eq_true _ _) (eq_sym Hkeep)).
  - intros j Hj. rewrite list_lookup_fmap.
    destruct (nodes (mindMap st) !! j) as [n'|] eqn:Hn'; simpl; [| done].
    destruct (strict_eq _ _) eqn:Heq; [| done].
    apply strict_eq_true in Heq. destruct Hj.
    apply (NoDup_lookup _ j i (MindNode.id n) Hnd); unfold nodeIds;
      rewrite list_lookup_fmap; [rewrite Hn' | rewrite Hn]; simpl; congruence.
Qed.

Lemma edit_writes_stored_node_witness :
  NoDup (nodeIds (nodes (mindMap initialState))) ∧
  nodes (mindMap initialState) !! 1 = Some workSeed ∧
  MindNode.id workDragged = MindNode.id workSeed ∧
  nodes (mindMap
           (run initialState
              (saveEdit (foldl editNodeField
                           (handleEditClick
                              (nodeClick (mindMap initialState) workDragged
                                 initialMindMap))
                           [EditLabel "Career"])).2))
    !! 1 = Some workRenamed.
Proof.
  split; [exact (proj1 seed_distinctIds) |].
  split; [reflexivity |]. split; [reflexivity |].
  exact (proj1 (edit_writes_stored_node initialState workDragged
                  initialMindMap 1 workSeed [EditLabel "Career"]
                  (proj1 seed_distinctIds) eq_refl eq_refl)).
Defined.

(** X28. While the edit form holds a node, a click on another drawn node
    or on the background changes neither the form nor what saving does:
    saving raises the edit of the node the form holds and selects that
    node, whatever was selected in between. *)
Theorem saveEdit_ignores_selection data d m n :
  editNode m = Some n →
  saveEdit (nodeClick data d m) = saveEdit m ∧
  saveEdit (svgClick m) = saveEdit m ∧
  (saveEdit m).2 = [UpdateNode n] ∧
  selectedNode (saveEdit m).1 = Some n.
Proof.
  intros He. unfold saveEdit, nodeClick, svgClick.
  destruct (find _ (nodes data)); simpl; by rewrite He.
Qed.

Lemma saveEdit_ignores_selection_witness :
  editNode
    (foldl editNodeField
       (handleEditClick (nodeClick INITIAL_DATA workDragged initialMindMap))
       [EditLabel "Career"])
    = Some workRenamed ∧
  (saveEdit
     (nodeClick INITIAL_DATA
        (seedNode "health" "Health" "💪" "Physical and mental well-being."
           77 (-12))
        (foldl editNodeField
           (handleEditClick
              (nodeClick INITIAL_DATA workDragged initialMindMap))
           [EditLabel "Career"]))).2
  = [UpdateNode workRenamed].
Proof.
  split; [reflexivity |].
  destruct (saveEdit_ignores_selection INITIAL_DATA
              (seedNode "health" "Health" "💪"
                 "Physical and mental well-being." 77 (-12))
              (foldl editNodeField
                 (handleEditClick
                    (nodeClick INITIAL_DATA workDragged initialMindMap))
                 [EditLabel "Career"])
              workRenamed eq_refl) as (H1 & _ & H3 & _).
  exact (eq_trans (f_equal snd H1) H3).
Defined.

(** ** [ChatWindow] *)

Lemma markApplied_key id m : messageKey (markApplied id m) = messageKey m.
Proof. unfold markApplied. by case_bool_decide. Qed.

Lemma dropSuggestion_key id m : messageKey (dropSuggestion id m) = messageKey m.
Proof. unfold dropSuggestion. by case_bool_decide. Qed.

Lemma markApplied_suggestion id m :
  ChatMessage.suggestedChanges (markApplied id m)
  = if bool_decide (ChatMessage.id m = id) then None
    else ChatMessage.suggestedChanges m.
Proof. unfold markApplied. by case_bool_decide. Qed.

Lemma dropSuggestion_suggestion id m :
  ChatMessage.suggestedChanges (dropSuggestion id m)
  = if bool_decide (ChatMessage.id m = id) then None
    else ChatMessage.suggestedChanges m.
Proof. unfold dropSuggestion. by case_bool_decide. Qed.

(** X22. A click on Apply under a message raises in [App] the proposal of
    that message, once.  It keeps every message in place with its id, role
    and timestamp, adds the note to the message, and takes the suggestion
    away from every message carrying that id: a second click finds no
    button, raises nothing and changes nothing. *)
Theorem clickApply_consumes c i m proposal :
  messages c !! i = Some m →
  ChatMessage.suggestedChanges m = Some proposal →
  (clickApply i c).2 = [ApplyChanges proposal] ∧
  messageKey <$> messages (clickApply i c).1 = messageKey <$> messages c ∧
  messages (clickApply i c).1 !! i
    = Some (ChatMessage.mk (ChatMessage.id m) (ChatMessage.role m)
              (ChatMessage.content m +:+ appliedNote)
              (ChatMessage.timestamp m) None (ChatMessage.attachments m)) ∧
  Forall (λ m', ChatMessage.id m' = ChatMessage.id m →
                ChatMessage.suggestedChanges m' = None)
    (messages (clickApply i c).1) ∧
  clickApply i (clickApply i c).1 = ((clickApply i c).1, []).
Proof.
  intros Hm Hp.
  assert (clickApply i c = handleApply (ChatMessage.id m) proposal c) as ->.
  { unfold clickApply. by rewrite Hm, Hp. }
  assert (messages (handleApply (ChatMessage.id m) proposal c).1 !! i
          = Some (markApplied (ChatMessage.id m) m)) as Hi.
  { simpl. by rewrite list_lookup_fmap, Hm. }
  split_and!.
  - done.
  - simpl. rewrite <- list_fmap_compose. apply list_fmap_ext.
    intros j m' _. apply markApplied_key.
  - rewrite Hi. unfold markApplied. by rewrite bool_decide_true.
  - apply Forall_forall. intros m' (m0 & -> & _)%list_elem_of_fmap Hid.
    rewrite markApplied_suggestion. case_bool_decide as Hd; [done |].
    destruct Hd. revert Hid. unfold markApplied. by case_bool_decide.
  - unfold clickApply at 1. rewrite Hi, markApplied_suggestion.
    by rewrite bool_decide_true.
Qed.

Lemma clickApply_consumes_witness :
  messages chatWithSuggestion !! 1
    = Some (ChatMessage.mk "1700000000501" assistant
              "I can add the gym under Health." 1700000000501
              (Some gymProposal) None) ∧
  (clickApply 1 chatWithSuggestion).2 = [ApplyChanges gymProposal] ∧
  clickApply 1 (clickApply 1 chatWithSuggestion).1
  = ((clickApply 1 chatWithSuggestion).1, []).
Proof.
  split; [reflexivity |].
  destruct (clickApply_consumes chatWithSuggestion 1 _ gymProposal
              eq_refl eq_refl) as (H1 & _ & _ & _ & H5).
  exact (conj H1 H5).
Defined.

Section ChatSessions.
Variable trim : string → string.

Lemma chatRun_snoc c evs ev :
  chatRun trim c (evs ++ [ev])
  = ((chatHandle trim (chatRun trim c evs).1 ev).1,
     (chatRun trim c evs).2 ++ (chatHandle trim (chatRun trim c evs).1 ev).2).
Proof.
  unfold chatRun. rewrite foldl_app; simpl.
  by destruct (chatHandle trim _ ev).
Qed.

Lemma clickApply_messages i c :
  messages (clickApply i c).1 = messages c ∨
  ∃ id, messages (clickApply i c).1 = markApplied id <$> messages c.
Proof.
  unfold clickApply. destruct (messages c !! i) as [m|]; [| by left].
  destruct (ChatMessage.suggestedChanges m); [| by left].
  right. by eexists.
Qed.

Lemma clickIgnore_messages i c :
  messages (clickIgnore i c) = messages c ∨
  ∃ id, messages (clickIgnore i c) = dropSuggestion id <$> messages c.
Proof.
  unfold clickIgnore. destruct (messages c !! i) as [m|]; [| by left].
  destruct (ChatMessage.suggestedChanges m); [| by left].
  right. by eexists.
Qed.

(** One event either appends messages, or rewrites the messages in place
    with one of the two updaters. *)
Lemma chatHandle_messages c ev :
  (∃ new, messages (chatHandle trim c ev).1 = messages c ++ new) ∨
  (∃ id, messages (chatHandle trim c ev).1 = markApplied id <$> messages c) ∨
  (∃ id, messages (chatHandle trim c ev).1 = dropSuggestion id <$> messages c).
Proof.
  destruct ev; simpl;
    try (left; by eexists);
    try (left; exists []; by rewrite app_nil_r).
  - left. unfold handleSend. destruct (_ && _); simpl.
    + exists []. by rewrite app_nil_r.
    + by eexists.
  - destruct (clickApply_messages i c) as [-> | [id ->]];
      [left; exists []; by rewrite app_nil_r | right; left; by eexists].
  - destruct (clickIgnore_messages i c) as [-> | [id ->]];
      [left; exists []; by rewrite app_nil_r | right; right; by eexists].
  - left. unfold onresult. case_bool_decide; simpl;
      exists []; by rewrite app_nil_r.
Qed.

Lemma chatHandle_keys c ev :
  messageKey <$> messages c
    `prefix_of` messageKey <$> messages (chatHandle trim c ev).1.
Proof.
  destruct (chatHandle_messages c ev) as [[new ->] | [[id ->] | [id ->]]].
  - rewrite fmap_app. by apply prefix_app_r.
  - rewrite <- list_fmap_compose.
    by rewrite (list_fmap_ext (messageKey ∘ markApplied id) messageKey
                  (messages c)) by (intros; apply markApplied_key).
  - rewrite <- list_fmap_compose.
    by rewrite (list_fmap_ext (messageKey ∘ dropSuggestion id) messageKey
                  (messages c)) by (intros; apply dropSuggestion_key).
Qed.

(** X23. In a chat session messages are only appended: the messages from
    before the session are still there at the end, at their positions,
    with their ids, roles and timestamps. *)
Theorem chatRun_appends c evs :
  messageKey <$> messages c
    `prefix_of` messageKey <$> messages (chatRun trim c evs).1.
Proof.
  induction evs as [|ev evs IH] using rev_ind; [done |].
  rewrite chatRun_snoc; simpl. etrans; [exact IH | apply chatHandle_keys].
Qed.

Lemma chatHandle_no_suggestion c ev i m :
  messages c !! i = Some m → ChatMessage.suggestedChanges m = None →
  ∃ m', messages (chatHandle trim c ev).1 !! i = Some m' ∧
        ChatMessage.suggestedChanges m' = None.
Proof.
  intros Hm Hs.
  destruct (chatHandle_messages c ev) as [[new ->] | [[id ->] | [id ->]]].
  - exists m. split; [| done]. rewrite lookup_app_l; [done |].
    by eapply lookup_lt_Some.
  - eexists. rewrite list_lookup_fmap, Hm; simpl. split; [done |].
    rewrite markApplied_suggestion. by case_bool_decide.
  - eexists. rewrite list_lookup_fmap, Hm; simpl. split; [done |].
    rewrite dropSuggestion_suggestion. by case_bool_decide.
Qed.

(** X24. A message that offers no suggestion never offers one later: what
    was applied or ignored stays so, and a message that came without a
    suggestion never grows the two buttons. *)
Theorem suggestion_never_returns c evs i m :
  messages c !! i = Some m →
  ChatMessage.suggestedChanges m = None →
  ∃ m', messages (chatRun trim c evs).1 !! i = Some m' ∧
        ChatMessage.suggestedChanges m' = None.
Proof.
  intros Hm Hs. induction evs as [|ev evs IH] using rev_ind; [by exists m |].
  destruct IH as (m1 & Hm1 & Hs1). rewrite chatRun_snoc; simpl.
  by eapply chatHandle_no_suggestion.
Qed.
End ChatSessions.

Lemma suggestion_never_returns_witness :
  messages (clickApply 1 chatWithSuggestion).1 !! 1
    = Some (ChatMessage.mk "1700000000501" assistant
              ("I can add the gym under Health." +:+ appliedNote)
              1700000000501 None None) ∧
  ∃ m', messages
          (chatRun (λ s, s) (clickApply 1 chatWithSuggestion).1
             [TypeInput "Thanks"; Send 1700000001000 1700000001000;
              ClickApply 1; RequestFailed 1700000002000 1700000002000]).1
          !! 1 = Some m' ∧
        ChatMessage.suggestedChanges m' = None.
Proof.
  split; [reflexivity |].
  exact (suggestion_never_returns (λ s, s) (clickApply 1 chatWithSuggestion).1
           _ 1 _ eq_refl eq_refl).
Defined.

(** Counting the messages that still offer a suggestion, under a rewrite
    of the messages that never gives one. *)
Section Offers.
Context (f : ChatMessage.t → ChatMessage.t).
Hypothesis f_gives_none :
  ∀ m, is_Some (ChatMessage.suggestedChanges (f m)) →
       is_Some (ChatMessage.suggestedChanges m).

Lemma offers_le (l : list ChatMessage.t) :
  (length (filter (λ m, is_Some (ChatMessage.suggestedChanges m)) (f <$> l))
   ≤ length (filter (λ m, is_Some (ChatMessage.suggestedChanges m)) l))%nat.
Proof.
  induction l as [|a l IH]; [done |].
  rewrite fmap_cons, !filter_cons.
  destruct (decide (is_Some (ChatMessage.suggestedChanges (f a)))) as [Hf |];
    destruct (decide (is_Some (ChatMessage.suggestedChanges a))) as [| Hn];
    cbn [length]; try lia.
  destruct Hn. by apply f_gives_none.
Qed.

Lemma offers_lt (l : list ChatMessage.t) i m :
  l !! i = Some m →
  is_Some (ChatMessage.suggestedChanges m) →
  ChatMessage.suggestedChanges (f m) = None →
  length (filter (λ m, is_Some (ChatMessage.suggestedChanges m)) (f <$> l))
  < length (filter (λ m, is_Some (ChatMessage.suggestedChanges m)) l).
Proof.
  revert i. induction l as [|a l IH]; intros [|i] Hm Hs Hf; try done.
  - injection Hm as ->. rewrite fmap_cons, !filter_cons, Hf.
    rewrite decide_False by (by intros []). rewrite decide_True by done.
    pose proof (offers_le l). cbn [length]. lia.
  - specialize (IH i Hm Hs Hf). rewrite fmap_cons, !filter_cons.
    destruct (decide (is_Some (ChatMessage.suggestedChanges (f a))));
      destruct (decide (is_Some (ChatMessage.suggestedChanges a))) as [| Hn];
      cbn [length]; try lia.
    destruct Hn. by apply f_gives_none.
Qed.
End Offers.

Lemma markApplied_gives_none id m :
  is_Some (ChatMessage.suggestedChanges (markApplied id m)) →
  is_Some (ChatMessage.suggestedChanges m).
Proof. rewrite markApplied_suggestion. case_bool_decide; [by intros [] | done]. Qed.

Lemma dropSuggestion_gives_none id m :
  is_Some (ChatMessage.suggestedChanges (dropSuggestion id m)) →
  is_Some (ChatMessage.suggestedChanges m).
Proof.
  rewrite dropSuggestion_suggestion. case_bool_decide; [by intros [] | done].
Qed.

Lemma offers_snoc (l : list ChatMessage.t) m :
  length (filter (λ m, is_Some (ChatMessage.suggestedChanges m)) (l ++ [m]))
  = length (filter (λ m, is_Some (ChatMessage.suggestedChanges m)) l)
    + match ChatMessage.suggestedChanges m with Some _ => 1 | None => 0 end.
Proof.
  rewrite filter_app, length_app, filter_cons, filter_nil.
  destruct (decide _) as [[p Hp] | Hn]; cbn beta in *.
  - by rewrite Hp.
  - destruct (ChatMessage.suggestedChanges m); [| done].
    destruct Hn. by eexists.
Qed.

Section ChatCounts.
Variable trim : string → string.

Lemma chatHandle_count c ev :
  (length (chatHandle trim c ev).2 + length (pending (chatHandle trim c ev).1)
   ≤ length (pending c) + (if bringsSuggestion ev then 1 else 0))%nat.
Proof.
  unfold pending. destruct ev; cbn [chatHandle fst snd bringsSuggestion].
  - unfold handleSend. destruct (_ && _); cbn [messages length]; [lia |].
    rewrite offers_snoc. cbn. lia.
  - cbn [responseArrived messages length]. rewrite offers_snoc. cbn.
    destruct (suggestedChanges response); cbn; lia.
  - cbn [requestFailed messages length]. rewrite offers_snoc. cbn. lia.
  - unfold clickApply.
    destruct (messages c !! i) as [m|] eqn:Hm; cbn [fst snd length]; [| lia].
    destruct (ChatMessage.suggestedChanges m) as [p|] eqn:Hp;
      cbn [handleApply fst snd messages length]; [| lia].
    pose proof (offers_lt (markApplied (ChatMessage.id m))
                  (markApplied_gives_none _) (messages c) i m Hm) as Hlt.
    rewrite Hp, markApplied_suggestion, bool_decide_true in Hlt by done.
    specialize (Hlt (mk_is_Some _ _ eq_refl) eq_refl). lia.
  - unfold clickIgnore.
    destruct (messages c !! i) as [m|]; cbn [length]; [| lia].
    destruct (ChatMessage.suggestedChanges m);
      cbn [handleIgnore messages length]; [| lia].
    pose proof (offers_le (dropSuggestion (ChatMessage.id m))
                  (dropSuggestion_gives_none _) (messages c)). lia.
  - cbn. lia.
  - unfold onresult. case_bool_decide; cbn [messages length]; lia.
  - cbn. lia.
  - cbn. lia.
Qed.

(** X25. A chat session applies no more proposals than were suggested: the
    number of proposals it raises in [App], plus the number of messages
    still offering one at its end, is at most the number of messages that
    offered one at its start plus the number of answers that brought
    one. *)
Theorem chatRun_applies_at_most_suggested c evs :
  (length (chatRun trim c evs).2 + length (pending (chatRun trim c evs).1)
   ≤ length (pending c) + length (filter (λ ev, bringsSuggestion ev) evs))%nat.
Proof.
  induction evs as [|ev evs IH] using rev_ind; [simpl; lia |].
  rewrite chatRun_snoc, filter_app, !length_app. cbn [fst snd].
  rewrite length_app.
  pose proof (chatHandle_count (chatRun trim c evs).1 ev) as Hstep.
  rewrite filter_cons, filter_nil.
  destruct (bringsSuggestion ev);
    [rewrite decide_True by done | rewrite decide_False by auto];
    cbn [length] in *; lia.
Qed.

(** X26. [handleSend] leaves the chat untouched exactly when the trimmed
    input is empty and no request is in flight.  In every other case, also
    with an empty input while a request is in flight, it appends one user
    message to the end of the list, with the trimmed input as its content
    and no suggestion, empties the text field and marks a request in
    flight; the earlier messages and the listening flag stay. *)
Theorem handleSend_idle now stamp c :
  (handleSend trim now stamp c = c ↔
   trim (input c) = EmptyString ∧ isProcessing c = false) ∧
  (¬ (trim (input c) = EmptyString ∧ isProcessing c = false) →
   handleSend trim now stamp c
   = {| messages :=
          messages c ++
          [ChatMessage.mk (pretty now) user (trim (input c)) stamp None None];
        input := EmptyString;
        isProcessing := true;
        isListening := isListening c |}).
Proof.
  unfold handleSend. split; [split |].
  - destruct (bool_decide _ && _) eqn:Hg.
    + intros _. apply andb_prop in Hg as [Ht Hp].
      apply bool_decide_eq_true in Ht. by destruct (isProcessing c).
    + intros Heq. apply (f_equal messages) in Heq. simpl in Heq.
      apply (f_equal length) in Heq.
      rewrite length_app in Heq; simpl in Heq. lia.
  - intros [-> ->]. by rewrite bool_decide_true.
  - intros Hn. destruct (bool_decide _ && _) eqn:Hg; [| done].
    destruct Hn. apply andb_prop in Hg as [Ht Hp].
    apply bool_decide_eq_true in Ht. by destruct (isProcessing c).
Qed.

Lemma append_nil_r (s : string) : s +:+ EmptyString = s.
Proof.
  induction s as [|a s IH]; [done |].
  change (String a (s +:+ EmptyString) = String a s). by rewrite IH.
Qed.

Lemma append_assoc (s1 s2 s3 : string) :
  (s1 +:+ s2) +:+ s3 = s1 +:+ (s2 +:+ s3).
Proof.
  induction s1 as [|a s1 IH]; [done |].
  change (String a ((s1 +:+ s2) +:+ s3) = String a (s1 +:+ (s2 +:+ s3))).
  by rewrite IH.
Qed.

Lemma foldl_finalTranscript acc rs :
  foldl (λ finalTranscript r,
           if isFinal r then finalTranscript +:+ transcript r
           else finalTranscript) acc rs
  = acc +:+ foldr String.append EmptyString
              (transcript <$> filter (λ r, isFinal r) rs).
Proof.
  revert acc. induction rs as [|r rs IH]; intros acc; simpl.
  - by rewrite append_nil_r.
  - rewrite IH, filter_cons. destruct (isFinal r); simpl; [| done].
    by rewrite append_assoc.
Qed.

(** The loop of [onresult] collects the final results from [resultIndex]
    on, and nothing else. *)
Lemma finalTranscriptOf_spoken resultIndex results :
  finalTranscriptOf resultIndex results = spoken resultIndex results.
Proof. unfold finalTranscriptOf. by rewrite foldl_finalTranscript. Qed.

Lemma spoken_interim resultIndex results :
  Forall (λ r, isFinal r = false) (drop resultIndex results) →
  spoken resultIndex results = EmptyString.
Proof.
  unfold spoken. generalize (drop resultIndex results). intros rs H.
  induction H as [|r rs Hr _ IH]; [done |].
  rewrite filter_cons, Hr. simpl. exact IH.
Qed.

(** X27. Of a recognition event only the final results from [resultIndex]
    on reach the text field; results that are not final, and results
    before [resultIndex], never do.  When the transcripts of those final
    results, put one behind the other, are empty (so when there is no such
    result), [onresult] leaves the chat as it is; otherwise it writes the
    text field with the trimmed old text, a blank and those transcripts,
    and no other cell. *)
Theorem onresult_interim resultIndex results c :
  (spoken resultIndex results = EmptyString →
   onresult trim resultIndex results c = c) ∧
  (spoken resultIndex results ≠ EmptyString →
   onresult trim resultIndex results c
   = {| messages := messages c;
        input := trim (input c +:+ " " +:+ spoken resultIndex results);
        isProcessing := isProcessing c;
        isListening := isListening c |}) ∧
  (Forall (λ r, isFinal r = false) (drop resultIndex results) →
   onresult trim resultIndex results c = c).
Proof.
  unfold onresult. rewrite finalTranscriptOf_spoken. split_and!.
  - intros ->. by rewrite bool_decide_true.
  - intros Hs. by rewrite bool_decide_false.
  - intros H. by rewrite (spoken_interim _ _ H), bool_decide_true.
Qed.
End ChatCounts.

(** A second click on Send while the first request is in flight, with the
    text field empty: a message with no text is appended. *)
Lemma handleSend_idle_witness :
  (input initialChat = EmptyString ∧ isProcessing initialChat = false ∧
   handleSend (λ s, s) 1700000000000 1700000000000 initialChat = initialChat) ∧
  (¬ (input (handleSend (λ s, s) 1700000000000 1700000000000
               (typeInput "I joined a gym" initialChat)) = EmptyString ∧
      isProcessing (handleSend (λ s, s) 1700000000000 1700000000000
                      (typeInput "I joined a gym" initialChat)) = false) ∧
   handleSend (λ s, s) 1700000000900 1700000000900
     (handleSend (λ s, s) 1700000000000 1700000000000
        (typeInput "I joined a gym" initialChat))
   = {| messages :=
          messages initialChat ++
          [ChatMessage.mk "1700000000000" user "I joined a gym" 1700000000000
             None None;
           ChatMessage.mk "1700000000900" user EmptyString 1700000000900
             None None];
        input := EmptyString;
        isProcessing := true;
        isListening := false |}).
Proof.
  split.
  - split; [reflexivity |]. split; [reflexivity |].
    exact (proj2 (proj1 (handleSend_idle (λ s, s) 1700000000000 1700000000000
                           initialChat)) (conj eq_refl eq_refl)).
  - assert (¬ (input (handleSend (λ s, s) 1700000000000 1700000000000
                        (typeInput "I joined a gym" initialChat))
               = EmptyString ∧
               isProcessing (handleSend (λ s, s) 1700000000000 1700000000000
                               (typeInput "I joined a gym" initialChat))
               = false)) as Hn.
    { intros [_ H]. discriminate H. }
    split; [exact Hn |].
    exact (proj2 (handleSend_idle (λ s, s) 1700000000900 1700000000900
                    (handleSend (λ s, s) 1700000000000 1700000000000
                       (typeInput "I joined a gym" initialChat))) Hn).
Defined.

(** A final result before [resultIndex] and an interim one behind it are
    left out; the final result from [resultIndex] on is written. *)
Lemma onresult_interim_witness :
  (spoken 1 [ {| isFinal := true; transcript := "buy milk" |};
              {| isFinal := false; transcript := "and br" |};
              {| isFinal := true; transcript := "and bread" |} ]
   ≠ EmptyString) ∧
  onresult (λ s, s) 1
    [ {| isFinal := true; transcript := "buy milk" |};
      {| isFinal := false; transcript := "and br" |};
      {| isFinal := true; transcript := "and bread" |} ]
    (typeInput "Today:" initialChat)
  = typeInput "Today: and bread" initialChat.
Proof.
  assert (spoken 1 [ {| isFinal := true; transcript := "buy milk" |};
                     {| isFinal := false; transcript := "and br" |};
                     {| isFinal := true; transcript := "and bread" |} ]
          ≠ EmptyString) as H.
  { intros Habs. discriminate Habs. }
  split; [exact H |].
  exact (proj1 (proj2 (onresult_interim (λ s, s) 1 _
                         (typeInput "Today:" initialChat))) H).
Defined.
